(** * check.go: OS helpers of the gce-server (package [check])

    A shallow embedding of
    [kvm-xfstests/test-appliance/files/usr/local/lib/gce-server/util/check/check.go]
    together with the small part of the Go runtime and standard library the
    package leans on: strings and [strings.Split], slices that share a
    backing array, a file system, process execution and the logrus logger. *)

From Stdlib Require Import ZArith Ascii String.
From Stdlib.Strings Require Import Byte.
From stdpp Require Import gmap strings list fin_maps.

(** ** Go strings

    A Go string is a sequence of bytes; [string] (a list of 8-bit [ascii])
    is the same data. *)
Module GoStrings.

Definition newline : ascii := "010"%char.

(** [s[:m]] *)
Fixpoint str_take (m : nat) (s : string) : string :=
  match m, s with
  | S m', String a s' => String a (str_take m' s')
  | _, _ => EmptyString
  end.

(** [s[m:]] *)
Fixpoint str_drop (m : nat) (s : string) : string :=
  match m, s with
  | S m', String _ s' => str_drop m' s'
  | _, _ => s
  end.

(** [strings.IndexByte(s, c)], [None] standing for [-1]. *)
Fixpoint IndexByte (s : string) (c : ascii) : option nat :=
  match s with
  | EmptyString => None
  | String a s' => if Ascii.eqb a c then Some 0 else S <$> IndexByte s' c
  end.

(** [strings.Count(s, sep)] for a one-byte separator. *)
Fixpoint Count (s : string) (c : ascii) : nat :=
  match s with
  | EmptyString => 0
  | String a s' => (if Ascii.eqb a c then 1 else 0) + Count s' c
  end.

(** The loop of [strings.genSplit(s, sep, 0, -1)] for a one-byte
    separator: [n] is the number of cuts still allowed ([Count + 1] cells
    are allocated, the last one receives the rest of the string). *)
Fixpoint genSplit_loop (c : ascii) (n : nat) (s : string) : list string :=
  match n with
  | 0 => [s]
  | S n' =>
      match IndexByte s c with
      | None => [s]
      | Some m => str_take m s :: genSplit_loop c n' (str_drop (m + 1) s)
      end
  end.

(** [strings.Split(s, "\n")]. *)
Definition Split_newline (s : string) : list string :=
  genSplit_loop newline (Count s newline) s.

(** The textbook line splitter, by recursion on the string; it is only
    used to reason about [Split_newline]. *)
Fixpoint lines_of (s : string) : list string :=
  match s with
  | EmptyString => [EmptyString]
  | String a s' =>
      if Ascii.eqb a newline then EmptyString :: lines_of s'
      else match lines_of s' with
           | l :: ls => String a l :: ls
           | [] => [String a EmptyString]
           end
  end.

(** [string(content)] for [content : []byte]. *)
Definition string_of_bytes (content : list byte) : string :=
  string_of_list_byte content.

End GoStrings.

(** ** Go slices over a shared store of backing arrays *)
Module GoSlice.

(** A slice header: the address of its backing array, the offset of its
    first element in it, its length and its capacity. *)
Record slice := Slice { s_arr : nat; s_off : nat; s_len : nat; s_cap : nat }.

(** The store: backing arrays by address. *)
Abbreviation heap A := (list (list A)).

Section Slices.
Context {A : Type} (zero : A).

Definition alloc (h : heap A) (a : list A) : heap A * nat :=
  (h ++ [a], length h).

(** [a := make([]T, n)] with [elems] stored in its first cells, re-sliced
    to them: [a[:len(elems)]]. *)
Definition slice_of_list (h : heap A) (elems : list A) (n : nat)
    : heap A * slice :=
  let '(h', p) := alloc h (elems ++ replicate (n - length elems) zero) in
  (h', Slice p 0 (length elems) n).

(** The elements a slice shows. *)
Definition slice_data (h : heap A) (s : slice) : list A :=
  take (s_len s) (drop (s_off s) (default [] (h !! s_arr s))).

(** [s[i]]; [None] is the index-out-of-range panic. *)
Definition slice_index (h : heap A) (s : slice) (i : nat) : option A :=
  if decide (i < s_len s) then
    a ← h !! s_arr s; a !! (s_off s + i)
  else None.

(** [s[lo:hi]]; [None] is the bounds panic ([lo <= hi <= cap(s)]). *)
Definition slice_sub (s : slice) (lo hi : nat) : option slice :=
  if decide (lo ≤ hi ∧ hi ≤ s_cap s) then
    Some (Slice (s_arr s) (s_off s + lo) (hi - lo) (s_cap s - lo))
  else None.

(** [append(s, t...)]: the elements of [t] are read first; when they fit
    in the capacity of [s] they are written into its backing array right
    after its last element, otherwise a larger array is allocated and
    everything is copied there. *)
Definition append (h : heap A) (s t : slice) : heap A * slice :=
  let vals := slice_data h t in
  let need := s_len s + length vals in
  if decide (need ≤ s_cap s) then
    (alter (list_inserts (s_off s + s_len s) vals) (s_arr s) h,
     Slice (s_arr s) (s_off s) need (s_cap s))
  else
    let newcap := need `max` (2 * s_cap s) in
    let '(h', p) :=
      alloc h (slice_data h s ++ vals ++ replicate (newcap - need) zero) in
    (h', Slice p 0 need newcap).

End Slices.
End GoSlice.

(** ** Go errors

    The error values that reach this package: [*os.PathError] from the file
    system (around an error number, or around the [*os.SyscallError] of a
    named system call), [*exec.Error] and [*exec.ExitError] from process
    execution, and plain [errors.New] values. A Go [error] that may be [nil] is an
    [option error]. *)
Module GoError.

Inductive errno := ENOENT | EACCES | EISDIR | ENOTDIR | EIO | ELOOP | ENOEXEC.

Inductive error :=
| PathError (op path : string) (e : errno)
| PathSyscallError (op path call : string) (e : errno)
| ExecError (name : string) (e : errno)
| ExitError (code : Z)
| ErrorString (msg : string).

(** A library call that returns [(v, nil)] or [(zero, err)]. *)
Inductive result (T : Type) :=
| Ok (v : T)
| Err (e : error).
Arguments Ok {T} v.
Arguments Err {T} e.

(** How a call ends: it returns, or a panic with value [p] unwinds it. *)
Inductive outcome (P T : Type) :=
| Returned (v : T)
| Panicked (p : P).
Arguments Returned {P T} v.
Arguments Panicked {P T} p.

End GoError.

(** ** The file system, as package [os] shows it *)
Module OS.
Import GoError.

(** Open flags and permission bits, with their Linux values. *)
Definition O_RDONLY : Z := 0.
Definition O_WRONLY : Z := 1.
Definition O_CREATE : Z := 64.
Definition O_TRUNC : Z := 512.
Definition S_IRUSR : Z := 256.
Definition S_IWUSR : Z := 128.

Definition has_flag (flags bit : Z) : bool := negb (Z.land flags bit =? 0)%Z.

(** What a path resolves to: a regular file with its mode and bytes, a
    directory, or a path the kernel refuses to resolve with error [e]
    (no search permission on an ancestor, a missing ancestor, a
    symbolic-link loop, a device error). A path outside the map does not
    exist, in a directory that does and in which the caller may create
    it. Paths are taken as they are written: every file is reached by one
    spelling, without links. *)
Inductive node :=
| File (mode : Z) (data : list byte)
| Directory
| Fault (e : errno).

Abbreviation filesystem := (gmap string node).

(** [os.FileInfo], as far as the package looks at it. *)
Record FileInfo := { IsDir : bool; Size : nat }.

(** [os.Stat(name)] *)
Definition Stat (fs : filesystem) (name : string) : result FileInfo :=
  match fs !! name with
  | None => Err (PathError "stat" name ENOENT)
  | Some (Fault e) => Err (PathError "stat" name e)
  | Some Directory => Ok {| IsDir := true; Size := 0 |}
  | Some (File _ data) => Ok {| IsDir := false; Size := length data |}
  end.

(** An open file: the path it was opened at and its offset. *)
Record handle := { h_path : string; h_pos : nat }.

(** [os.OpenFile(name, flag, perm)], the caller acting as the owner of
    every file, with an empty umask. Without [O_TRUNC] an existing file
    keeps its bytes; the offset of the new handle is zero. *)
Definition OpenFile (fs : filesystem) (name : string) (flag perm : Z)
    : filesystem * result handle :=
  let h := {| h_path := name; h_pos := 0 |} in
  match fs !! name with
  | None =>
      if has_flag flag O_CREATE then (<[name := File perm []]> fs, Ok h)
      else (fs, Err (PathError "open" name ENOENT))
  | Some (Fault e) => (fs, Err (PathError "open" name e))
  | Some Directory =>
      if has_flag flag O_WRONLY then (fs, Err (PathError "open" name EISDIR))
      else (fs, Ok h)
  | Some (File mode data) =>
      if has_flag flag O_WRONLY then
        if has_flag mode S_IWUSR then
          if has_flag flag O_TRUNC then (<[name := File mode []]> fs, Ok h)
          else (fs, Ok h)
        else (fs, Err (PathError "open" name EACCES))
      else
        if has_flag mode S_IRUSR then (fs, Ok h)
        else (fs, Err (PathError "open" name EACCES))
  end.

(** [os.Open(name)] is [OpenFile(name, O_RDONLY, 0)]. *)
Definition Open (fs : filesystem) (name : string) : result handle :=
  snd (OpenFile fs name O_RDONLY 0).

(** Everything from the offset of [f] to the end of the file. *)
Definition read_all (fs : filesystem) (f : handle) : result (list byte) :=
  match fs !! h_path f with
  | Some (File _ data) => Ok (drop (h_pos f) data)
  | Some Directory => Err (PathError "read" (h_path f) EISDIR)
  | Some (Fault e) => Err (PathError "read" (h_path f) e)
  | None => Err (PathError "read" (h_path f) ENOENT)
  end.

(** Bytes [new] written over [old] from offset [pos]: bytes before [pos]
    and bytes after the written range stay; a gap is filled with zeros. *)
Definition write_at (pos : nat) (new old : list byte) : list byte :=
  take pos old ++ replicate (pos - length old) "000"%byte
    ++ new ++ drop (pos + length new) old.

(** [f.Write(new)] *)
Definition write (fs : filesystem) (f : handle) (new : list byte)
    : filesystem * option error :=
  match fs !! h_path f with
  | Some (File mode old) =>
      (<[h_path f := File mode (write_at (h_pos f) new old)]> fs, None)
  | _ => (fs, Some (PathError "write" (h_path f) EIO))
  end.

(** [io.Copy(to, from)] between two files: the kernel is asked to copy
    ([copy_file_range]), which it refuses for a directory; otherwise
    [from] is read to its end and what was read is written to [to].
    Returns the number of bytes copied and the first error. *)
Definition Copy (fs : filesystem) (to from : handle)
    : filesystem * (nat * option error) :=
  match fs !! h_path from with
  | Some Directory =>
      (fs, (0, Some (PathSyscallError "write" (h_path to) "copy_file_range"
                       EISDIR)))
  | _ =>
      match read_all fs from with
      | Err e => (fs, (0, Some e))
      | Ok bytes =>
          let '(fs', err) := write fs to bytes in
          (fs', (match err with None => length bytes | Some _ => 0 end, err))
      end
  end.

(** [ioutil.ReadFile(filename)] *)
Definition ReadFile (fs : filesystem) (filename : string) : result (list byte) :=
  match Open fs filename with
  | Err e => Err e
  | Ok f => read_all fs f
  end.

(** The bytes of a regular file at [name], if there is one. *)
Definition content (fs : filesystem) (name : string) : option (list byte) :=
  match fs !! name with
  | Some (File _ data) => Some data
  | _ => None
  end.

End OS.

(** ** Process execution, as package [os/exec] shows it *)
Module Exec.
Import GoError GoStrings.

(** An [io.Writer]: a sink of the caller, or the buffer [Output] and
    [CombinedOutput] of [exec.Cmd] capture into. A writer takes every
    byte it is given; a sink that refuses a write is not modelled. *)
Inductive Writer := Sink (id : nat) | CaptureBuffer.

#[global] Instance Writer_eq_dec : EqDecision Writer.
Proof. solve_decision. Defined.

(** The fields of [exec.Cmd] the package touches; a [nil] slice or
    writer is [None]. *)
Record Cmd := {
  Path : string;
  Args : list string;
  Dir : string;
  Env : option (list string);
  Stdout : option Writer;
  Stderr : option Writer
}.

Definition set_Dir (c : Cmd) (d : string) : Cmd :=
  {| Path := Path c; Args := Args c; Dir := d; Env := Env c;
     Stdout := Stdout c; Stderr := Stderr c |}.
Definition set_Env (c : Cmd) (e : list string) : Cmd :=
  {| Path := Path c; Args := Args c; Dir := Dir c; Env := Some e;
     Stdout := Stdout c; Stderr := Stderr c |}.
Definition set_Stdout (c : Cmd) (w : option Writer) : Cmd :=
  {| Path := Path c; Args := Args c; Dir := Dir c; Env := Env c;
     Stdout := w; Stderr := Stderr c |}.
Definition set_Stderr (c : Cmd) (w : option Writer) : Cmd :=
  {| Path := Path c; Args := Args c; Dir := Dir c; Env := Env c;
     Stdout := Stdout c; Stderr := w |}.

Inductive stream := OnStdout | OnStderr.

#[global] Instance stream_eq_dec : EqDecision stream.
Proof. solve_decision. Defined.

(** What the operating system answers to a request to run a program:
    it cannot be started, or it runs to its end, writing chunks to its
    two output streams in some order and leaving an exit status. *)
Inductive ProcResult :=
| StartFailed (e : error)
| Exited (code : Z) (output : list (stream * list byte)).

(** The operating system: program, arguments, directory and environment
    to what happens. *)
Abbreviation process_oracle :=
  (string → list string → string → list string → ProcResult).

Definition exit_error (code : Z) : option error :=
  if decide (code = 0%Z) then None else Some (ExitError code).

(** Where the chunks of a run go: to the writer of their stream, when
    the command has one. *)
Definition deliveries (c : Cmd) (output : list (stream * list byte))
    : list (Writer * list byte) :=
  omap (λ chunk : stream * list byte,
          match chunk.1 with
          | OnStdout => (λ w, (w, chunk.2)) <$> Stdout c
          | OnStderr => (λ w, (w, chunk.2)) <$> Stderr c
          end) output.

(** The bytes the program wrote to stream [st], in order. *)
Definition stream_bytes (st : stream) (output : list (stream * list byte))
    : list byte :=
  concat (omap (λ chunk : stream * list byte,
                  if decide (chunk.1 = st) then Some chunk.2 else None) output).

(** The bytes that reached writer [w], in order. *)
Definition written_to (w : Writer) (ds : list (Writer * list byte)) : list byte :=
  concat (omap (λ d : Writer * list byte,
                  if decide (d.1 = w) then Some d.2 else None) ds).

(** *** The environment of the child

    An entry is [NAME=VALUE]; the name ends at the first [=]. When a name
    occurs more than once [os/exec] keeps the last entry. *)
Definition equals_sign : ascii := "="%char.

Definition entry_name (kv : string) : option string :=
  (λ i, str_take i kv) <$> IndexByte kv equals_sign.

Definition entry_value (kv : string) : option string :=
  (λ i, str_drop (i + 1) kv) <$> IndexByte kv equals_sign.

(** The value the child sees for [name]. *)
Fixpoint lookup_env (env : list string) (name : string) : option string :=
  match env with
  | [] => None
  | kv :: rest =>
      match lookup_env rest name with
      | Some v => Some v
      | None => if decide (entry_name kv = Some name) then entry_value kv else None
      end
  end.

Section WithOS.
Variable environ : list string.     (* os.Environ() *)
Variable spawn : process_oracle.

(** The environment [os/exec] hands to the child: [c.Env], or the
    environment of the current process when [c.Env] is [nil]. *)
Definition child_env (c : Cmd) : list string := default environ (Env c).

(** What the operating system answers when [os/exec] starts [c]. *)
Definition launch (c : Cmd) : ProcResult :=
  spawn (Path c) (Args c) (Dir c) (child_env c).

(** [c.Run()]: the error, and what was written to which writer. *)
Definition Cmd_Run (c : Cmd) : option error * list (Writer * list byte) :=
  match launch c with
  | StartFailed e => (Some e, [])
  | Exited code output => (exit_error code, deliveries c output)
  end.

(** [c.Output()] *)
Definition Cmd_Output (c : Cmd)
    : (list byte * option error) * list (Writer * list byte) :=
  match Stdout c with
  | Some _ => (([], Some (ErrorString "exec: Stdout already set")), [])
  | None =>
      let '(err, ds) := Cmd_Run (set_Stdout c (Some CaptureBuffer)) in
      ((written_to CaptureBuffer ds, err),
       filter (λ d, d.1 ≠ CaptureBuffer) ds)
  end.

(** [c.CombinedOutput()] *)
Definition Cmd_CombinedOutput (c : Cmd)
    : (list byte * option error) * list (Writer * list byte) :=
  match Stdout c, Stderr c with
  | Some _, _ => (([], Some (ErrorString "exec: Stdout already set")), [])
  | None, Some _ => (([], Some (ErrorString "exec: Stderr already set")), [])
  | None, None =>
      let c' := set_Stderr (set_Stdout c (Some CaptureBuffer)) (Some CaptureBuffer) in
      let '(err, ds) := Cmd_Run c' in
      ((written_to CaptureBuffer ds, err),
       filter (λ d, d.1 ≠ CaptureBuffer) ds)
  end.

(** No subprocess comes to run: [os/exec] refuses a command whose
    [Stdout] is already set, or the operating system cannot start the
    program. *)
Definition cannot_start (c : Cmd) : Prop :=
  is_Some (Stdout c) ∨ ∃ e, launch c = StartFailed e.

(** The subprocess runs and leaves a status other than zero. *)
Definition exits_nonzero (c : Cmd) : Prop :=
  Stdout c = None
  ∧ ∃ code output, launch c = Exited code output ∧ code ≠ 0%Z.

End WithOS.

End Exec.

(** ** The logger, as package [logrus] shows it *)
Module Logrus.
Import GoError.

Inductive Level :=
| PanicLevel | FatalLevel | ErrorLevel | WarnLevel
| InfoLevel | DebugLevel | TraceLevel.

#[global] Instance Level_eq_dec : EqDecision Level.
Proof. solve_decision. Defined.

(** A value of a field of an entry. *)
Inductive value :=
| VError (e : error)
| VString (s : string).

(** [logrus.ErrorKey] *)
Definition ErrorKey : string := "error".

(** [Level] as the number logrus gives it: panic is 0, trace is 6. *)
Definition level_rank (l : Level) : nat :=
  match l with
  | PanicLevel => 0
  | FatalLevel => 1
  | ErrorLevel => 2
  | WarnLevel => 3
  | InfoLevel => 4
  | DebugLevel => 5
  | TraceLevel => 6
  end.

(** [logger.IsLevelEnabled(level)], for a logger set to [logger_level]:
    [logger.level() >= level]. *)
Definition IsLevelEnabled (logger_level level : Level) : bool :=
  level_rank level <=? level_rank logger_level.

(** [*logrus.Entry]: a logger, of which the level it is set to matters
    here, together with the fields collected so far. *)
Record Entry := { LoggerLevel : Level; Data : gmap string value }.

(** An entry handed to the logger at some level with some message. *)
Record LogRecord := {
  Severity : Level;
  Message : string;
  Fields : gmap string value
}.

(** What the logger has logged so far, oldest first. How the logger
    writes an entry down (formatting, hooks) is its business. *)
Abbreviation log_trace := (list LogRecord).

(** [entry.WithError(err)]: a new entry with the error under [ErrorKey]. *)
Definition WithError (entry : Entry) (err : error) : Entry :=
  {| LoggerLevel := LoggerLevel entry;
     Data := <[ErrorKey := VError err]> (Data entry) |}.

(** [entry.Log(level, msg)]: the entry is logged when the logger has
    [level] enabled, and dropped otherwise. *)
Definition Entry_Log (entry : Entry) (level : Level) (msg : string)
    (tr : log_trace) : log_trace :=
  if IsLevelEnabled (LoggerLevel entry) level then
    tr ++ [ {| Severity := level; Message := msg; Fields := Data entry |} ]
  else tr.

(** [entry.Error(msg)] *)
Definition Entry_Error (entry : Entry) (msg : string) (tr : log_trace) : log_trace :=
  Entry_Log entry ErrorLevel msg tr.

(** [entry.Panic(msg)]: [entry.Log(PanicLevel, msg)], then a panic with
    the entry. *)
Definition Entry_Panic {T} (entry : Entry) (msg : string) (tr : log_trace)
    : log_trace * outcome LogRecord T :=
  let r := {| Severity := PanicLevel; Message := msg; Fields := Data entry |} in
  (Entry_Log entry PanicLevel msg tr, Panicked r).

End Logrus.

Module Check.
Import GoStrings GoSlice.

(** *** ReadLines, lines 105-112: split and filter in place *)

(** The body of [for i, line := range lines]: [idx] holds the indices
    still to visit. [lines] is evaluated once, so its header is fixed;
    its elements are read from the store at each iteration. *)
Fixpoint ReadLines_range (idx : list nat) (h : heap string)
    (lines nonEmptyLines : slice) : option (heap string * slice) :=
  match idx with
  | [] => Some (h, nonEmptyLines)
  | i :: rest =>
      line ← slice_index h lines i;
      if decide (line ≠ EmptyString) then
        one ← slice_sub lines i (i + 1);
        let '(h', nonEmptyLines') := append EmptyString h nonEmptyLines one in
        ReadLines_range rest h' lines nonEmptyLines'
      else ReadLines_range rest h lines nonEmptyLines
  end.

(** The slice [strings.Split(s, "\n")] returns: [genSplit] makes an array
    of [Count + 1] cells and returns the cells it filled. *)
Definition Split_newline_slice (h : heap string) (s : string)
    : heap string * slice :=
  slice_of_list EmptyString h (Split_newline s) (Count s newline + 1).

(** Lines 105-112 on the text [s] of the file, in store [h]. *)
Definition ReadLines_split_filter (h : heap string) (s : string)
    : option (heap string * slice) :=
  let '(h1, lines) := Split_newline_slice h s in
  nonEmptyLines ← slice_sub lines 0 0;
  ReadLines_range (seq 0 (s_len lines)) h1 lines nonEmptyLines.

(** The strings the returned slice shows. *)
Definition ReadLines_lines (s : string) : option (list string) :=
  '(h, nonEmptyLines) ← ReadLines_split_filter [] s;
  Some (slice_data h nonEmptyLines).

(** What the comment of [ReadLines] promises: the newline-separated
    pieces of the text, without the empty ones. *)
Definition nonempty_lines (s : string) : list string :=
  filter (λ l, l ≠ EmptyString) (Split_newline s).

(** The test of line 108. *)
Definition keep (l : string) : Prop := l ≠ EmptyString.

(** *** The package, top to bottom *)
Import GoError OS Exec Logrus.

(** [const RootDir] *)
Definition RootDir : string := "/usr/local/lib/gce-server".

(** [var EmptyEnv] *)
Definition EmptyEnv : gmap string string := ∅.

Section WithOS.
Variable environ : list string.     (* os.Environ() *)
Variable spawn : process_oracle.
(** The order in which [range] visits a map; Go leaves it open. *)
Variable map_range : gmap string string → list (string * string).

(** [parseEnv], the loop over the pairs [range env] yields. *)
Definition parseEnv_loop (newEnv : list string) (kvs : list (string * string))
    : list string :=
  foldl (λ newEnv kv, newEnv ++ [(kv.1 +:+ "=") +:+ kv.2]) newEnv kvs.

Definition parseEnv (env : gmap string string) : list string :=
  let newEnv := environ in
  parseEnv_loop newEnv (map_range env).

(** The command [Run] executes: lines 29-32. The two writers are
    sinks of the caller, or nil. *)
Definition Run_cmd (cmd : Cmd) (workDir : string) (env : gmap string string)
    (stdout stderr : option nat) : Cmd :=
  set_Stderr
    (set_Stdout (set_Env (set_Dir cmd workDir) (parseEnv env)) (Sink <$> stdout))
    (Sink <$> stderr).

Definition Run (cmd : Cmd) (workDir : string) (env : gmap string string)
    (stdout stderr : option nat) : option error * list (Writer * list byte) :=
  Cmd_Run environ spawn (Run_cmd cmd workDir env stdout stderr).

(** The command [Output] executes: lines 40-42. *)
Definition Output_cmd (cmd : Cmd) (workDir : string) (env : gmap string string)
    (stderr : option nat) : Cmd :=
  set_Stderr (set_Env (set_Dir cmd workDir) (parseEnv env)) (Sink <$> stderr).

Definition Output (cmd : Cmd) (workDir : string) (env : gmap string string)
    (stderr : option nat)
    : (string * option error) * list (Writer * list byte) :=
  let '((out, err), ds) :=
    Cmd_Output environ spawn (Output_cmd cmd workDir env stderr) in
  ((string_of_bytes out, err), ds).

(** The command [CombinedOutput] executes: lines 50-51. *)
Definition CombinedOutput_cmd (cmd : Cmd) (workDir : string)
    (env : gmap string string) : Cmd :=
  set_Env (set_Dir cmd workDir) (parseEnv env).

Definition CombinedOutput (cmd : Cmd) (workDir : string) (env : gmap string string)
    : (string * option error) * list (Writer * list byte) :=
  let '((out, err), ds) :=
    Cmd_CombinedOutput environ spawn (CombinedOutput_cmd cmd workDir env) in
  ((string_of_bytes out, err), ds).
End WithOS.

Definition FileExists (fs : filesystem) (filename : string) : bool :=
  match Stat fs filename with
  | Ok info => if negb (IsDir info) then true else false
  | Err _ => false
  end.

Definition DirExists (fs : filesystem) (filename : string) : bool :=
  match Stat fs filename with
  | Ok info => if IsDir info then true else false
  | Err _ => false
  end.

(** [ReadLines]; [None] would be a run-time panic of the slice
    operations. *)
Definition ReadLines (fs : filesystem) (filename : string)
    : option (list string * option error) :=
  let lines : list string := [] in
  match ReadFile fs filename with
  | Err err => Some (lines, Some err)
  | Ok content =>
      nonEmptyLines ← ReadLines_lines (string_of_bytes content);
      Some (nonEmptyLines, None)
  end.

(** The octal literal [0644]: [rw-r--r--]. *)
Definition perm_0644 : Z := (6 * 64 + 4 * 8 + 4)%Z.

(** [CopyFile]: the file system afterwards and the error. The deferred
    [Close] calls release the two handles and change no file. *)
Definition CopyFile (fs : filesystem) (dst src : string)
    : filesystem * option error :=
  match Open fs src with
  | Err err => (fs, Some err)
  | Ok from =>
      let '(fs1, r) := OpenFile fs dst (Z.lor O_CREATE O_WRONLY) perm_0644 in
      match r with
      | Err err => (fs1, Some err)
      | Ok to =>
          let '(fs2, (_, err)) := Copy fs1 to from in
          match err with
          | Some err => (fs2, Some err)
          | None => (fs2, None)
          end
      end
  end.

(** [Panic]: what the logger has been handed afterwards, and how the call
    ends. *)
Definition Panic (err : option error) (log : Entry) (msg : string)
    (tr : log_trace) : log_trace * outcome LogRecord unit :=
  let msg := if decide (msg = EmptyString) then "Something bad happended"%string
             else msg in
  match err with
  | Some e => Entry_Panic (WithError log e) msg tr
  | None => (tr, Returned tt)
  end.

(** [NoError]: what the logger has been handed afterwards, and the
    boolean. *)
Definition NoError (err : option error) (log : Entry) (msg : string)
    (tr : log_trace) : log_trace * bool :=
  let msg := if decide (msg = EmptyString) then "Something bad happended"%string
             else msg in
  match err with
  | Some e => (Entry_Error (WithError log e) msg tr, false)
  | None => (tr, true)
  end.

(** The text lines 140 and 151 put in the place of an empty message. *)
Definition default_message : string := "Something bad happended".

(** The message that is logged for [msg]. *)
Definition logged_message (msg : string) : string :=
  if decide (msg = EmptyString) then default_message else msg.

(** The entry [parseEnv] appends for a pair of the map. *)
Definition override_entry (kv : string * string) : string :=
  (kv.1 +:+ "=") +:+ kv.2.

(** No key of the map contains [=]. *)
Definition names_ok (env : gmap string string) : Prop :=
  map_Forall (λ k _, IndexByte k equals_sign = None) env.

End Check.

(** ** Sample worlds, to run the statements in *)
Module Samples.
Import GoStrings GoError OS Exec Logrus Check.

(** The bytes of ["a\n\nb\n"]. *)
Definition a_blank_b : list byte := [x61; x0a; x0a; x62; x0a]%byte.

Definition fs_example : filesystem :=
  {[ "/tmp/lines"%string := File 420 a_blank_b;
     "/tmp/blank"%string := File 420 [x0a; x0a]%byte;
     "/tmp"%string := Directory ]}.

Definition fs_kinds : filesystem :=
  {[ "/etc"%string := Directory;
     "/etc/fstab"%string := File 420 [x2f]%byte;
     "/root/secret"%string := Fault EACCES ]}.

(** Source ["ab"], destination ["wxyz"]. *)
Definition fs_copy : filesystem :=
  {[ "/src"%string := File 420 [x61; x62]%byte;
     "/dst"%string := File 420 [x77; x78; x79; x7a]%byte ]}.

Definition boom : error := ErrorString "boom".
(** An entry of a logger at its default level, and one of a logger set
    to log fatal and panic entries only. *)
Definition plain_entry : Entry := {| LoggerLevel := InfoLevel; Data := ∅ |}.
Definition quiet_entry : Entry := {| LoggerLevel := FatalLevel; Data := ∅ |}.

Definition environ_example : list string :=
  ["PATH=/bin"%string; "FOO=old"%string].

Definition env_example : gmap string string := {[ "FOO"%string := "bar"%string ]}.

Definition hello : list byte := [x68; x65; x6c; x6c; x6f]%byte.

(** [/bin/echo] prints [hello]; [/bin/false] prints [hel], complains and
    leaves status 1; nothing else can be started. *)
Definition spawn_example : process_oracle :=
  λ path args dir env,
    if decide (path = "/bin/echo"%string) then Exited 0 [(OnStdout, hello)]
    else if decide (path = "/bin/false"%string) then
      Exited 1 [(OnStdout, [x68; x65; x6c]%byte); (OnStderr, [x21]%byte)]
    else StartFailed (ExecError path ENOENT).

(** A program that prints the value it finds for [FOO] in its
    environment. *)
Definition spawn_printenv : process_oracle :=
  λ path args dir env,
    Exited 0 [(OnStdout, list_byte_of_string (default EmptyString (lookup_env env "FOO")))].

Definition cmd_example (path : string) : Cmd :=
  {| Path := path; Args := [path]; Dir := ""; Env := None;
     Stdout := None; Stderr := None |}.

End Samples.


(** ** Text as lines *)
Module LinesText.
Import GoStrings.

(** Every line followed by a newline, one after the other. *)
Fixpoint unlines (ls : list string) : string :=
  match ls with
  | [] => EmptyString
  | l :: ls' => l +:+ String newline (unlines ls')
  end.

(** The text without its newline bytes. *)
Fixpoint strip_newlines (s : string) : string :=
  match s with
  | EmptyString => EmptyString
  | String a s' =>
      if Ascii.eqb a newline then strip_newlines s'
      else String a (strip_newlines s')
  end.

(** The strings of a list, one after the other. *)
Fixpoint join (ls : list string) : string :=
  match ls with
  | [] => EmptyString
  | l :: ls' => l +:+ join ls'
  end.

(** A line as [ReadLines] returns them: not empty, without a newline. *)
Definition proper_line (l : string) : Prop :=
  l ≠ EmptyString ∧ IndexByte l newline = None.

End LinesText.

(** ** More sample worlds *)
Module MoreSamples.
Import GoStrings GoError OS Exec Logrus Check Samples.

(** The bytes of ["a\n"], of ["b c\n"] and of ["a\n\nb c\n"]. *)
Definition bytes_a : list byte := [x61; x0a]%byte.
Definition bytes_b_c : list byte := [x62; x20; x63; x0a]%byte.
Definition bytes_joined : list byte := bytes_a ++ x0a :: bytes_b_c.

Definition fs_texts : filesystem :=
  {[ "/one"%string := File 420 bytes_a;
     "/two"%string := File 420 bytes_b_c;
     "/both"%string := File 420 bytes_joined;
     "/blank"%string := File 420 [x0a; x0a; x0a]%byte;
     "/dir"%string := Directory;
     "/locked"%string := File 0 bytes_a ]}.

(** Two lines, and a file system with a file that holds them, each
    followed by a newline. *)
Definition two_lines : list string := ["a"%string; "b c"%string].

Definition fs_written : filesystem :=
  {[ "/written"%string
       := File 420 (list_byte_of_string (LinesText.unlines two_lines)) ]}.

(** A file everyone may read ([0644]) and one only its owner may
    ([0600]). *)
Definition fs_modes : filesystem :=
  {[ "/pub"%string := File 420 bytes_a;
     "/priv"%string := File 384 bytes_b_c ]}.

(** An entry that already carries an error and a request id. *)
Definition busy_entry : Entry :=
  {| LoggerLevel := InfoLevel;
     Data := {[ "error"%string := VError (ErrorString "old");
                "req"%string := VString "42" ]} |}.

(** A command with everything preset. *)
Definition cmd_preset (path : string) : Cmd :=
  {| Path := path; Args := [path]; Dir := "/elsewhere";
     Env := Some ["FOO=preset"%string];
     Stdout := Some (Sink 7); Stderr := Some (Sink 8) |}.

End MoreSamples.

(** * Properties *)

(** ** [strings.Split] on newlines *)
Module SplitFacts.
Import GoStrings.

Lemma lines_of_nonempty s : lines_of s ≠ [].
Proof.
  destruct s as [|a s]; simpl; [done|].
  destruct (Ascii.eqb a newline); [done|].
  by destruct (lines_of s).
Qed.

(** With enough cuts allowed, the loop of [genSplit] is [lines_of]. *)
Lemma genSplit_loop_lines_of s :
  ∀ n, Count s newline ≤ n → genSplit_loop newline n s = lines_of s.
Proof.
  induction s as [|a s IH]; intros n Hn.
  - by destruct n.
  - simpl in Hn. cbn [lines_of].
    destruct (Ascii.eqb a newline) eqn:Ha.
    + destruct n as [|n]; [lia|].
      cbn [genSplit_loop IndexByte]. rewrite Ha. cbn.
      f_equal. apply IH. lia.
    + simpl in Hn. specialize (IH n Hn).
      pose proof (lines_of_nonempty s) as Hne.
      destruct n as [|n].
      * simpl in IH. rewrite <- IH. done.
      * cbn [genSplit_loop IndexByte] in *. rewrite Ha.
        destruct (IndexByte s newline) as [m|]; cbn in *.
        -- by rewrite <- IH.
        -- by rewrite <- IH.
Qed.

Lemma Split_newline_lines_of s : Split_newline s = lines_of s.
Proof. by apply genSplit_loop_lines_of. Qed.

(** [genSplit] allocates [Count + 1] cells and fills them all. *)
Lemma Split_newline_length s : length (Split_newline s) = Count s newline + 1.
Proof.
  rewrite Split_newline_lines_of.
  induction s as [|a s IH]; [done|]. cbn [lines_of Count].
  destruct (Ascii.eqb a newline); cbn [length]; [lia|].
  pose proof (lines_of_nonempty s).
  destruct (lines_of s); [done|]. simpl in *. lia.
Qed.

(** A text of newlines only splits into empty pieces only. *)
Lemma lines_of_all_newlines s :
  Count s newline = String.length s →
  Forall (λ l, l = EmptyString) (lines_of s).
Proof.
  induction s as [|a s IH]; intros Hc; cbn [lines_of].
  - by constructor.
  - cbn [Count String.length] in Hc.
    assert (Count s newline ≤ String.length s) as Hle.
    { clear. induction s as [|b s IH]; simpl; [lia|].
      destruct (Ascii.eqb b newline); lia. }
    destruct (Ascii.eqb a newline); [|lia].
    constructor; [done|]. apply IH. lia.
Qed.

End SplitFacts.

(** ** The in-place filter of [ReadLines] *)
Module FilterFacts.
Import GoStrings GoSlice Check.

Lemma append_one_in_place (h : heap string) (a : list string) p i j n line :
  h !! p = Some a → a !! i = Some line → j < n → n ≤ length a →
  append EmptyString h (Slice p 0 j n) (Slice p i 1 (n - i))
  = (alter (list_inserts j [line]) p h, Slice p 0 (j + 1) n).
Proof.
  intros Hp Hi Hj Hn. unfold append, slice_data. cbn [s_len s_off s_arr s_cap].
  rewrite Hp. cbn [from_option]. unfold id.
  assert (take 1 (drop i a) = [line]) as ->.
  { rewrite (drop_S _ _ _ Hi). simpl. by rewrite take_0. }
  cbn [length]. rewrite decide_True by lia. done.
Qed.

(** The loop invariant. The backing array [a] of [lines] has [n] cells;
    [i] cells have been visited and [j <= i] of them kept, in cells
    [0..j-1]. The cells from [i] on are still those of the split. The
    loop ends with the kept prefix extended by the non-empty cells among
    [i..i+k-1]; it never leaves the backing array. *)
Lemma ReadLines_range_invariant n p :
  ∀ k i j (h : heap string) (a : list string),
    h !! p = Some a → length a = n → j ≤ i → i + k = n →
    ∃ h' a',
      ReadLines_range (seq i k) h (Slice p 0 n n) (Slice p 0 j n)
      = Some (h', Slice p 0 (j + length (filter keep (take k (drop i a)))) n)
      ∧ h' !! p = Some a' ∧ length a' = n
      ∧ take (j + length (filter keep (take k (drop i a)))) a'
        = take j a ++ filter keep (take k (drop i a)).
Proof.
  induction k as [|k IH]; intros i j h a Hp Hlen Hji Hik.
  - exists h, a. rewrite take_0. simpl. rewrite Nat.add_0_r, app_nil_r. done.
  - assert (i < length a) as Hi by lia.
    destruct (lookup_lt_is_Some_2 a i Hi) as [line Hline].
    cbn [seq ReadLines_range]. unfold slice_index. cbn [s_len s_arr s_off].
    rewrite decide_True by lia. rewrite Hp. simpl. rewrite Hline. simpl.
    rewrite (drop_S _ _ _ Hline), firstn_cons.
    destruct (decide (line ≠ EmptyString)) as [Hk|Hk].
    + rewrite filter_cons_True by done. cbn [length].
      unfold slice_sub. cbn [s_cap s_arr s_off].
      rewrite decide_True by lia. cbn [mbind option_bind].
      replace (i + 1 - i) with 1 by lia. cbn [Nat.add].
      rewrite (append_one_in_place h a p i j n line) by (done || lia).
      set (a1 := <[j := line]> a).
      assert (alter (list_inserts j [line]) p h !! p = Some a1) as Hp1.
      { rewrite list_lookup_alter_eq, Hp. done. }
      destruct (IH (S i) (j + 1) _ a1 Hp1) as (h' & a' & Hrun & Hp' & Hlen' & Htake).
      { unfold a1. by rewrite length_insert. }
      { lia. } { lia. }
      assert (drop (S i) a1 = drop (S i) a) as Hdrop.
      { unfold a1. apply drop_insert_lt. lia. }
      rewrite Hdrop in Hrun, Htake.
      exists h', a'.
      replace (j + S (length (filter keep (take k (drop (S i) a)))))
        with (j + 1 + length (filter keep (take k (drop (S i) a)))) by lia.
      split; [done|]. split; [done|]. split; [done|].
      rewrite Htake. unfold a1.
      replace (j + 1) with (S j) by lia.
      rewrite (take_S_r _ j line).
      * rewrite take_insert_ge by lia. by rewrite <- app_assoc.
      * apply list_lookup_insert_eq. lia.
    + rewrite filter_cons_False by done.
      destruct (IH (S i) j h a Hp Hlen) as (h' & a' & Hrun & Hp' & Hlen' & Htake);
        [lia|lia|].
      by exists h', a'.
Qed.

(** Lines 105-112 return, without a panic, a slice that shows the
    non-empty pieces of the split in their order, and that still lives
    in the array [strings.Split] allocated. *)
Lemma ReadLines_split_filter_spec (h : heap string) s :
  ∃ h' nonEmptyLines,
    ReadLines_split_filter h s = Some (h', nonEmptyLines)
    ∧ s_arr nonEmptyLines = length h
    ∧ slice_data h' nonEmptyLines = nonempty_lines s.
Proof.
  unfold ReadLines_split_filter, Split_newline_slice, slice_of_list, alloc.
  rewrite <- SplitFacts.Split_newline_length, Nat.sub_diag.
  cbn [replicate]. rewrite app_nil_r.
  unfold slice_sub. cbn [s_cap s_arr s_off s_len].
  set (a := Split_newline s). set (n := length a). set (p := length h).
  rewrite decide_True by lia. cbn [mbind option_bind].
  replace (0 - 0) with 0 by lia. replace (n - 0) with n by lia.
  destruct (ReadLines_range_invariant n p n 0 0 (h ++ [a]) a)
    as (h' & a' & Hrun & Hp' & Hlen' & Htake); [|done|lia|lia|].
  { unfold p. rewrite lookup_app_r by lia. by rewrite Nat.sub_diag. }
  subst n. rewrite drop_0, firstn_all in Hrun, Htake. simpl in Hrun, Htake.
  exists h', (Slice p 0 (length (filter keep a)) (length a)).
  split; [done|]. split; [done|].
  unfold slice_data. cbn [s_len s_off s_arr]. rewrite Hp'. simpl. done.
Qed.

Lemma ReadLines_lines_spec s : ReadLines_lines s = Some (nonempty_lines s).
Proof.
  unfold ReadLines_lines.
  destruct (ReadLines_split_filter_spec [] s) as (h' & ne & -> & _ & Hdata).
  simpl. by rewrite Hdata.
Qed.

End FilterFacts.

(** ** ReadLines *)
Module ReadLinesSpec.
Import GoStrings GoSlice GoError OS Check Samples SplitFacts FilterFacts.

Lemma string_of_bytes_newlines (content : list byte) :
  Forall (λ b, b = "010"%byte) content →
  Count (string_of_bytes content) newline
  = String.length (string_of_bytes content).
Proof.
  induction 1 as [|b bs -> _ IH]; [done|].
  unfold string_of_bytes, string_of_list_byte in *. cbn. by rewrite IH.
Qed.

Lemma nonempty_lines_blank (content : list byte) :
  Forall (λ b, b = "010"%byte) content →
  nonempty_lines (string_of_bytes content) = [].
Proof.
  intros Hnl. unfold nonempty_lines. rewrite Split_newline_lines_of.
  pose proof (lines_of_all_newlines _ (string_of_bytes_newlines _ Hnl)) as Hall.
  induction Hall as [|l ls -> _ IH]; [done|].
  by rewrite filter_cons_False by (intros Hne; by apply Hne).
Qed.

Lemma ReadLines_Ok fs filename content :
  ReadFile fs filename = Ok content →
  ReadLines fs filename = Some (nonempty_lines (string_of_bytes content), None).
Proof.
  intros Hread. unfold ReadLines. rewrite Hread.
  by rewrite ReadLines_lines_spec.
Qed.

Lemma ReadLines_Err fs filename e :
  ReadFile fs filename = Err e →
  ReadLines fs filename = Some ([], Some e).
Proof. intros Hread. unfold ReadLines. by rewrite Hread. Qed.

Lemma ReadFile_missing (fs : filesystem) filename :
  fs !! filename = None →
  ReadFile fs filename = Err (PathError "open" filename ENOENT).
Proof. intros Hno. unfold ReadFile, Open, OpenFile. by rewrite Hno. Qed.

(** C2. For a file that can be read, [ReadLines] returns, with a nil
    error, the pieces of its content between newlines, the empty ones
    removed and the others in their order. The bytes of ["a\n\nb\n"]
    give exactly ["a"; "b"]; an empty file, or one of newlines only,
    gives the empty sequence. *)
Theorem ReadLines_nonempty_lines_in_order (fs : filesystem) filename content :
  ReadFile fs filename = Ok content →
  ReadLines fs filename
  = Some (filter (λ l, l ≠ EmptyString)
            (Split_newline (string_of_bytes content)), None)
  ∧ (content = a_blank_b →
     ReadLines fs filename = Some (["a"%string; "b"%string], None))
  ∧ (Forall (λ b, b = "010"%byte) content →
     ReadLines fs filename = Some ([], None)).
Proof.
  intros Hread. rewrite (ReadLines_Ok _ _ _ Hread).
  split; [done|]. split.
  - intros ->. vm_compute. done.
  - intros Hnl. by rewrite nonempty_lines_blank.
Qed.

Lemma ReadLines_nonempty_lines_in_order_witness :
  ReadLines fs_example "/tmp/lines" = Some (["a"%string; "b"%string], None)
  ∧ ReadLines fs_example "/tmp/blank" = Some ([], None).
Proof.
  split.
  - apply (ReadLines_nonempty_lines_in_order fs_example "/tmp/lines" a_blank_b);
      reflexivity.
  - apply (ReadLines_nonempty_lines_in_order fs_example "/tmp/blank"
             [x0a; x0a]%byte); [reflexivity|].
    repeat constructor.
Defined.

(** C7. When the file cannot be read, [ReadLines] returns the error of
    the read (together with an empty sequence); a path that does not
    exist is such a case. A nil error means the file was read. *)
Theorem ReadLines_unreadable_is_error (fs : filesystem) filename :
  (∀ e, ReadFile fs filename = Err e →
        ReadLines fs filename = Some ([], Some e))
  ∧ (fs !! filename = None →
     ReadLines fs filename = Some ([], Some (PathError "open" filename ENOENT)))
  ∧ (∀ lines, ReadLines fs filename = Some (lines, None) →
              ∃ content, ReadFile fs filename = Ok content).
Proof.
  split; [|split].
  - intros e. apply ReadLines_Err.
  - intros Hno. apply ReadLines_Err. by apply ReadFile_missing.
  - intros lines Hrun. destruct (ReadFile fs filename) as [content|e] eqn:Hread.
    + by exists content.
    + rewrite (ReadLines_Err _ _ _ Hread) in Hrun. discriminate.
Qed.

Lemma ReadLines_unreadable_is_error_witness :
  ReadLines fs_example "/tmp/none"
  = Some ([], Some (PathError "open" "/tmp/none" ENOENT))
  ∧ ReadLines fs_example "/tmp"
    = Some ([], Some (PathError "read" "/tmp" EISDIR)).
Proof.
  destruct (ReadLines_unreadable_is_error fs_example "/tmp/none") as (_ & Hno & _).
  destruct (ReadLines_unreadable_is_error fs_example "/tmp") as (Herr & _ & _).
  split.
  - apply Hno. reflexivity.
  - apply Herr. reflexivity.
Defined.

(** C9. The loop of lines 106-111, which re-slices the split to length
    zero and appends each non-empty element back into the same backing
    array, returns without a panic a slice that shows exactly
    [filter (non-empty) (split on newline)]: the same elements in the
    same order, in any store it starts from. *)
Theorem ReadLines_in_place_filter_is_filter (h : heap string) (s : string) :
  (∃ h' nonEmptyLines,
      ReadLines_split_filter h s = Some (h', nonEmptyLines)
      ∧ slice_data h' nonEmptyLines
        = filter (λ l, l ≠ EmptyString) (Split_newline s))
  ∧ ReadLines_lines s = Some (nonempty_lines s).
Proof.
  split.
  - destruct (ReadLines_split_filter_spec h s) as (h' & ne & Hrun & _ & Hdata).
    by exists h', ne.
  - apply ReadLines_lines_spec.
Qed.

End ReadLinesSpec.

(** ** FileExists, DirExists and CopyFile *)
Module FileSpec.
Import GoError OS Check Samples.

(** C4. [FileExists] and [DirExists] return a plain boolean. [FileExists]
    is true exactly when [os.Stat] succeeds on something that is not a
    directory, [DirExists] exactly when it succeeds on a directory; every
    error of [os.Stat], a missing path included, gives false. So
    [FileExists] of a directory and [DirExists] of a regular file are
    false. *)
Theorem FileExists_DirExists_stat (fs : filesystem) (filename : string) :
  (FileExists fs filename = true
   ↔ ∃ info, Stat fs filename = Ok info ∧ IsDir info = false)
  ∧ (DirExists fs filename = true
     ↔ ∃ info, Stat fs filename = Ok info ∧ IsDir info = true)
  ∧ (∀ e, Stat fs filename = Err e →
          FileExists fs filename = false ∧ DirExists fs filename = false)
  ∧ (fs !! filename = None →
     FileExists fs filename = false ∧ DirExists fs filename = false)
  ∧ (fs !! filename = Some Directory → FileExists fs filename = false)
  ∧ (∀ mode data, fs !! filename = Some (File mode data) →
                  DirExists fs filename = false).
Proof.
  unfold FileExists, DirExists, Stat.
  split; [|split; [|split; [|split; [|split]]]].
  - split.
    + destruct (fs !! filename) as [[mode data| |e]|]; try discriminate.
      intros _. eexists. split; reflexivity.
    + intros (info & Hstat & Hdir).
      destruct (fs !! filename) as [[mode data| |e]|];
        inversion Hstat; subst; simpl in *; congruence.
  - split.
    + destruct (fs !! filename) as [[mode data| |e]|]; try discriminate.
      intros _. eexists. split; reflexivity.
    + intros (info & Hstat & Hdir).
      destruct (fs !! filename) as [[mode data| |e]|];
        inversion Hstat; subst; simpl in *; congruence.
  - intros e. destruct (fs !! filename) as [[mode data| |e']|]; done.
  - intros ->. done.
  - intros ->. done.
  - intros mode data ->. done.
Qed.

Lemma FileExists_DirExists_stat_witness :
  FileExists fs_kinds "/etc" = false
  ∧ DirExists fs_kinds "/etc/fstab" = false
  ∧ (FileExists fs_kinds "/root/secret" = false
     ∧ DirExists fs_kinds "/root/secret" = false)
  ∧ (FileExists fs_kinds "/nowhere" = false
     ∧ DirExists fs_kinds "/nowhere" = false).
Proof.
  split; [|split; [|split]].
  - apply (FileExists_DirExists_stat fs_kinds "/etc"). reflexivity.
  - apply (FileExists_DirExists_stat fs_kinds "/etc/fstab") with 420%Z [x2f]%byte.
    reflexivity.
  - apply (FileExists_DirExists_stat fs_kinds "/root/secret")
      with (PathError "stat" "/root/secret" EACCES).
    reflexivity.
  - apply (FileExists_DirExists_stat fs_kinds "/nowhere"). reflexivity.
Defined.

(** *** CopyFile *)

Lemma create_wronly_flags :
  has_flag (Z.lor O_CREATE O_WRONLY) O_CREATE = true
  ∧ has_flag (Z.lor O_CREATE O_WRONLY) O_WRONLY = true
  ∧ has_flag (Z.lor O_CREATE O_WRONLY) O_TRUNC = false
  ∧ has_flag O_RDONLY O_CREATE = false
  ∧ has_flag O_RDONLY O_WRONLY = false.
Proof. by vm_compute. Qed.

Lemma write_at_0 (new old : list byte) :
  write_at 0 new old = new ++ drop (length new) old.
Proof. unfold write_at. by rewrite take_0. Qed.

Lemma Open_Ok (fs : filesystem) src from :
  Open fs src = Ok from →
  from = {| h_path := src; h_pos := 0 |}
  ∧ (fs !! src = Some Directory ∨ ∃ mode B, fs !! src = Some (File mode B)).
Proof.
  destruct create_wronly_flags as (_ & _ & _ & Hrc & Hrw).
  unfold Open, OpenFile. rewrite Hrc, Hrw.
  destruct (fs !! src) as [[mode B| |e]|]; cbn [snd]; try discriminate.
  - destruct (has_flag mode S_IRUSR); cbn [snd]; [|discriminate].
    intros [= <-]. eauto.
  - intros [= <-]. eauto.
Qed.

(** Opening with [O_CREATE|O_WRONLY] creates an empty file where there
    was none and leaves an existing file as it is. *)
Lemma OpenFile_create_wronly_Ok (fs fs1 : filesystem) dst perm to :
  OpenFile fs dst (Z.lor O_CREATE O_WRONLY) perm = (fs1, Ok to) →
  to = {| h_path := dst; h_pos := 0 |}
  ∧ ((fs !! dst = None ∧ fs1 = <[dst := File perm []]> fs)
     ∨ (∃ mode old, fs !! dst = Some (File mode old) ∧ fs1 = fs)).
Proof.
  destruct create_wronly_flags as (Hc & Hw & Ht & _ & _).
  unfold OpenFile. rewrite Hc, Hw, Ht.
  destruct (fs !! dst) as [[mode old| |e]|]; try discriminate.
  - destruct (has_flag mode S_IWUSR); [|discriminate].
    intros [= <- <-]. eauto 6.
  - intros [= <- <-]. eauto.
Qed.

Lemma Copy_Ok (fs fs2 : filesystem) dst src n :
  Copy fs {| h_path := dst; h_pos := 0 |} {| h_path := src; h_pos := 0 |}
  = (fs2, (n, None)) →
  ∃ smode B dmode old,
    fs !! src = Some (File smode B) ∧ fs !! dst = Some (File dmode old)
    ∧ fs2 = <[dst := File dmode (B ++ drop (length B) old)]> fs.
Proof.
  unfold Copy, read_all, write. cbn [h_path h_pos].
  destruct (fs !! src) as [[smode B| |e]|]; try discriminate.
  destruct (fs !! dst) as [[dmode old| |e]|]; try discriminate.
  rewrite drop_0, write_at_0. intros [= <- _]. eauto 8.
Qed.

(** What a successful [CopyFile] leaves at [dst]: the bytes of [src]
    written over the old bytes of [dst] from offset zero. The
    destination is opened without [O_TRUNC], so old bytes beyond the
    length of the source stay. *)
Lemma CopyFile_success_content (fs fs' : filesystem) dst src :
  CopyFile fs dst src = (fs', None) →
  ∃ mode B,
    fs !! src = Some (File mode B)
    ∧ content fs' dst
      = Some (B ++ drop (length B) (default [] (content fs dst))).
Proof.
  unfold CopyFile.
  destruct (Open fs src) as [from|e] eqn:Hopen; [|discriminate].
  apply Open_Ok in Hopen as [-> Hsrc].
  destruct (OpenFile fs dst _ _) as [fs1 [to|e]] eqn:Hcreate; [|discriminate].
  apply OpenFile_create_wronly_Ok in Hcreate as [-> Hdst].
  destruct (Copy fs1 _ _) as [fs2 [n [e|]]] eqn:Hcopy; [discriminate|].
  intros [= <-].
  apply Copy_Ok in Hcopy as (smode & B & dmode & old & Hs1 & Hd1 & ->).
  unfold content at 1. rewrite lookup_insert_eq.
  destruct Hdst as [[Hnone ->]|(mode & old' & Hold & ->)].
  - rewrite lookup_insert_eq in Hd1. injection Hd1 as <- <-.
    assert (src ≠ dst) as Hne.
    { intros ->. rewrite lookup_insert_eq in Hs1.
      destruct Hsrc as [?|(? & ? & ?)]; congruence. }
    rewrite lookup_insert_ne in Hs1 by done.
    exists smode, B. split; [done|]. unfold content. by rewrite Hnone.
  - exists smode, B. split; [done|]. unfold content. rewrite Hd1. done.
Qed.

(** The destination ends up equal to the source when its old content
    was not longer than the source (or when it did not exist). *)
Lemma CopyFile_exact_when_not_longer (fs fs' : filesystem) dst src B mode :
  CopyFile fs dst src = (fs', None) →
  fs !! src = Some (File mode B) →
  length (default [] (content fs dst)) ≤ length B →
  content fs' dst = Some B.
Proof.
  intros Hcopy Hsrc Hlen.
  destruct (CopyFile_success_content _ _ _ _ Hcopy) as (m & B' & Hsrc' & ->).
  rewrite Hsrc in Hsrc'. injection Hsrc' as <- <-.
  rewrite drop_ge by done. by rewrite app_nil_r.
Qed.

(** Had the destination been opened with [O_TRUNC] as well, its old
    bytes would be gone before the copy starts. *)
Lemma OpenFile_trunc_empties (fs : filesystem) dst mode old :
  fs !! dst = Some (File mode old) →
  has_flag mode S_IWUSR = true →
  content (OpenFile fs dst (Z.lor (Z.lor O_CREATE O_WRONLY) O_TRUNC) perm_0644).1 dst
  = Some [].
Proof.
  intros Hdst Hw. unfold OpenFile, content. rewrite Hdst, Hw.
  replace (has_flag (Z.lor (Z.lor O_CREATE O_WRONLY) O_TRUNC) O_WRONLY)
    with true by (by vm_compute).
  replace (has_flag (Z.lor (Z.lor O_CREATE O_WRONLY) O_TRUNC) O_TRUNC)
    with true by (by vm_compute).
  cbn [fst]. by rewrite lookup_insert_eq.
Qed.

(** C1, at a destination longer than the source. [CopyFile] succeeds and
    leaves ["abyz"] at the destination: the two bytes of the source
    followed by the last two old bytes of the destination, not the
    content of the source. *)
Theorem CopyFile_longer_destination_keeps_tail :
  (CopyFile fs_copy "/dst" "/src").2 = None
  ∧ content fs_copy "/src" = Some [x61; x62]%byte
  ∧ content (CopyFile fs_copy "/dst" "/src").1 "/dst"
    = Some [x61; x62; x79; x7a]%byte
  ∧ content (CopyFile fs_copy "/dst" "/src").1 "/dst" ≠ content fs_copy "/src".
Proof. by vm_compute. Qed.

End FileSpec.

(** ** Panic and NoError *)
Module LogSpec.
Import GoError Logrus Check Samples.

Lemma PanicLevel_enabled (l : Level) : IsLevelEnabled l PanicLevel = true.
Proof. by destruct l. Qed.

(** The logger logs error entries: it is set to error level or to a more
    verbose one. *)
Lemma ErrorLevel_enabled (l : Level) :
  IsLevelEnabled l ErrorLevel = true ↔ l ≠ PanicLevel ∧ l ≠ FatalLevel.
Proof. destruct l; cbn; split; (done || by intros []). Qed.

Lemma NoError_nil log msg tr : NoError None log msg tr = (tr, true).
Proof. done. Qed.

Lemma NoError_non_nil e log msg tr :
  IsLevelEnabled (LoggerLevel log) ErrorLevel = true →
  NoError (Some e) log msg tr
  = (tr ++ [ {| Severity := ErrorLevel; Message := logged_message msg;
                Fields := <[ErrorKey := VError e]> (Data log) |} ], false).
Proof.
  intros Hon. unfold NoError, Entry_Error, Entry_Log, WithError.
  cbn [LoggerLevel Data]. by rewrite Hon.
Qed.

Lemma NoError_dropped e log msg tr :
  IsLevelEnabled (LoggerLevel log) ErrorLevel = false →
  NoError (Some e) log msg tr = (tr, false).
Proof.
  intros Hoff. unfold NoError, Entry_Error, Entry_Log, WithError.
  cbn [LoggerLevel Data]. by rewrite Hoff.
Qed.

Lemma Panic_nil log msg tr : Panic None log msg tr = (tr, Returned tt).
Proof. done. Qed.

Lemma Panic_non_nil e log msg tr :
  let r := {| Severity := PanicLevel; Message := logged_message msg;
              Fields := <[ErrorKey := VError e]> (Data log) |} in
  Panic (Some e) log msg tr = (tr ++ [r], Panicked r).
Proof.
  unfold Panic, Entry_Panic, Entry_Log, WithError. cbn [LoggerLevel Data].
  by rewrite PanicLevel_enabled.
Qed.

(** C5, as the code has it. [NoError] on a nil error returns true and
    logs nothing. On a non-nil error it returns false; a logger that has
    the error level enabled has then logged exactly one entry, at error
    level, whose message is [msg] (the default text when [msg] is empty)
    and whose [error] field is the error; a logger set to fatal or panic
    level has logged nothing. So the boolean is [err = nil]. *)
Theorem NoError_true_iff_nil (err : option error) (log : Entry) (msg : string)
    (tr : log_trace) :
  (err = None → NoError err log msg tr = (tr, true))
  ∧ (∀ e, err = Some e →
      IsLevelEnabled (LoggerLevel log) ErrorLevel = true →
      ∃ r, NoError err log msg tr = (tr ++ [r], false)
           ∧ Severity r = ErrorLevel
           ∧ (msg ≠ EmptyString → Message r = msg)
           ∧ Message r = logged_message msg
           ∧ Fields r !! ErrorKey = Some (VError e))
  ∧ (∀ e, err = Some e →
      IsLevelEnabled (LoggerLevel log) ErrorLevel = false →
      NoError err log msg tr = (tr, false))
  ∧ (IsLevelEnabled (LoggerLevel log) ErrorLevel = true
     ↔ LoggerLevel log ≠ PanicLevel ∧ LoggerLevel log ≠ FatalLevel)
  ∧ (NoError err log msg tr).2 = bool_decide (err = None).
Proof.
  split; [|split; [|split; [|split]]].
  - intros ->. apply NoError_nil.
  - intros e -> Hon. rewrite NoError_non_nil by done. eexists. split; [done|].
    cbn [Severity Message Fields]. split; [done|].
    split; [|split; [done|apply lookup_insert_eq]].
    intros Hmsg. unfold logged_message. by rewrite decide_False.
  - intros e -> Hoff. by apply NoError_dropped.
  - apply ErrorLevel_enabled.
  - destruct err as [e|]; [|done].
    destruct (IsLevelEnabled (LoggerLevel log) ErrorLevel) eqn:Hon.
    + by rewrite NoError_non_nil.
    + by rewrite NoError_dropped.
Qed.

Lemma NoError_true_iff_nil_witness :
  NoError None plain_entry "msg" [] = ([], true)
  ∧ (∃ r, NoError (Some boom) plain_entry "msg" [] = ([r], false)
          ∧ Severity r = ErrorLevel ∧ Message r = "msg"%string
          ∧ Fields r !! ErrorKey = Some (VError boom))
  ∧ NoError (Some boom) quiet_entry "msg" [] = ([], false).
Proof.
  destruct (NoError_true_iff_nil None plain_entry "msg" []) as (Hnil & _).
  destruct (NoError_true_iff_nil (Some boom) plain_entry "msg" [])
    as (_ & Herr & _).
  destruct (NoError_true_iff_nil (Some boom) quiet_entry "msg" [])
    as (_ & _ & Hdrop & _).
  split; [|split].
  - apply Hnil. reflexivity.
  - destruct (Herr boom eq_refl eq_refl) as (r & Hrun & Hsev & Hmsg & _ & Hfield).
    exists r. split; [exact Hrun|]. split; [exact Hsev|].
    split; [|exact Hfield]. apply Hmsg. discriminate.
  - apply (Hdrop boom); reflexivity.
Defined.

(** C5, as it is stated, fails: on a logger set to fatal level [NoError]
    returns false for a non-nil error without logging an entry. *)
Lemma NoError_logs_nothing_below_error_level :
  NoError (Some boom) quiet_entry "msg" [] = ([], false)
  ∧ ¬ ∃ r, NoError (Some boom) quiet_entry "msg" [] = ([r], false).
Proof.
  split; [reflexivity|]. intros [r Hr]. discriminate.
Qed.

(** C6, as the code has it. [Panic] on a nil error returns and hands
    nothing to the logger. On a non-nil error it hands the logger exactly
    one entry, at panic level, with [msg] (the default text
    ["Something bad happended"] when [msg] is empty) and the error, and
    then it panics with that entry: it does not return. *)
Theorem Panic_logs_at_panic_level_and_panics (err : option error) (log : Entry)
    (msg : string) (tr : log_trace) :
  (err = None → Panic err log msg tr = (tr, Returned tt))
  ∧ (∀ e, err = Some e →
      ∃ r, Panic err log msg tr = (tr ++ [r], Panicked r)
           ∧ Severity r = PanicLevel
           ∧ Message r
             = (if decide (msg = EmptyString)
                then "Something bad happended"%string else msg)
           ∧ Fields r !! ErrorKey = Some (VError e)
           ∧ ∀ v, (Panic err log msg tr).2 ≠ Returned v).
Proof.
  split.
  - intros ->. apply Panic_nil.
  - intros e ->. rewrite Panic_non_nil. eexists. split; [done|].
    cbn [Severity Message Fields]. split; [done|]. split; [done|].
    split; [apply lookup_insert_eq|done].
Qed.

Lemma Panic_logs_at_panic_level_and_panics_witness :
  Panic None plain_entry "" [] = ([], Returned tt)
  ∧ ∃ r, Panic (Some boom) plain_entry "" [] = ([r], Panicked r)
         ∧ Severity r = PanicLevel
         ∧ Message r = "Something bad happended"%string.
Proof.
  destruct (Panic_logs_at_panic_level_and_panics None plain_entry "" [])
    as (Hnil & _).
  destruct (Panic_logs_at_panic_level_and_panics (Some boom) plain_entry "" [])
    as (_ & Herr).
  split.
  - apply Hnil. reflexivity.
  - destruct (Herr boom eq_refl) as (r & Hrun & Hsev & Hmsg & _).
    exists r. split; [exact Hrun|]. split; [exact Hsev|exact Hmsg].
Defined.

(** C6, as it is stated, fails: the one entry [Panic] logs for a non-nil
    error is at panic level, not at fatal level. *)
Lemma Panic_entry_is_not_fatal :
  ¬ ∃ r out, Panic (Some boom) plain_entry "msg" [] = ([r], out)
             ∧ Severity r = FatalLevel.
Proof.
  intros (r & out & Hrun & Hsev).
  rewrite Panic_non_nil in Hrun. cbn in Hrun.
  injection Hrun as <- _. discriminate.
Qed.

(** C10, as the code has it. With an empty message [NoError] puts the
    fixed text ["Something bad happended"] in its place, just as [Panic]
    does: for a non-nil error the entry [NoError] logs carries that text
    whenever the logger has the error level enabled (otherwise no entry
    is logged), and the entry [Panic] logs always carries it. *)
Theorem NoError_empty_message_default (e : error) (log : Entry) (tr : log_trace) :
  (IsLevelEnabled (LoggerLevel log) ErrorLevel = true →
   ∃ r, NoError (Some e) log "" tr = (tr ++ [r], false)
        ∧ Message r = "Something bad happended"%string)
  ∧ (IsLevelEnabled (LoggerLevel log) ErrorLevel = false →
     NoError (Some e) log "" tr = (tr, false))
  ∧ (∃ r, Panic (Some e) log "" tr = (tr ++ [r], Panicked r)
          ∧ Message r = "Something bad happended"%string).
Proof.
  split; [|split].
  - intros Hon. rewrite NoError_non_nil by done. by eexists.
  - intros Hoff. by apply NoError_dropped.
  - rewrite Panic_non_nil. by eexists.
Qed.

Lemma NoError_empty_message_default_witness :
  (∃ r, NoError (Some boom) plain_entry "" [] = ([r], false)
        ∧ Message r = "Something bad happended"%string)
  ∧ NoError (Some boom) quiet_entry "" [] = ([], false).
Proof.
  destruct (NoError_empty_message_default boom plain_entry []) as (Hon & _ & _).
  destruct (NoError_empty_message_default boom quiet_entry []) as (_ & Hoff & _).
  split.
  - apply Hon. reflexivity.
  - apply Hoff. reflexivity.
Defined.

(** C10, as it is stated, fails: on a logger set to fatal level
    [NoError] with an empty message logs no entry, so not the default
    text either. *)
Lemma NoError_default_not_logged_below_error_level :
  ¬ ∃ r, In r (NoError (Some boom) quiet_entry "" []).1
         ∧ Message r = "Something bad happended"%string.
Proof. intros (r & Hin & _). exact Hin. Qed.

End LogSpec.

(** ** The environment of the child *)
Module EnvFacts.
Import GoStrings Exec Check.

Lemma append_String a k x : String a k +:+ x = String a (k +:+ x).
Proof. reflexivity. Qed.

Lemma append_Empty x : EmptyString +:+ x = x.
Proof. reflexivity. Qed.

Lemma override_entry_eq k v :
  override_entry (k, v) = k +:+ String equals_sign v.
Proof.
  unfold override_entry. cbn [fst snd].
  induction k as [|a k IH]; [done|].
  rewrite !append_String. by f_equal.
Qed.

Lemma IndexByte_append_fresh k c v :
  IndexByte k c = None →
  IndexByte (k +:+ String c v) c = Some (String.length k).
Proof.
  induction k as [|a k IH].
  - intros _. rewrite append_Empty. cbn. by rewrite Ascii.eqb_refl.
  - rewrite append_String. cbn.
    destruct (Ascii.eqb a c); [discriminate|].
    destruct (IndexByte k c) eqn:Hk; [discriminate|].
    intros _. by rewrite IH.
Qed.

Lemma str_take_append k x : str_take (String.length k) (k +:+ x) = k.
Proof.
  induction k as [|a k IH].
  - rewrite append_Empty. by destruct x.
  - rewrite append_String. cbn. by rewrite IH.
Qed.

Lemma str_drop_append k c v :
  str_drop (String.length k + 1) (k +:+ String c v) = v.
Proof.
  induction k as [|a k IH]; [done|].
  rewrite append_String. cbn. by rewrite IH.
Qed.

Lemma IndexByte_str_take s c i :
  IndexByte s c = Some i → IndexByte (str_take i s) c = None.
Proof.
  revert i. induction s as [|a s IH]; intros i; cbn; [discriminate|].
  destruct (Ascii.eqb a c) eqn:Ha.
  - by intros [= <-].
  - destruct (IndexByte s c) as [m|] eqn:Hs; [|discriminate].
    intros [= <-]. cbn. rewrite Ha. by rewrite (IH m).
Qed.

(** The entry of a key without [=] names that key and carries its
    value. *)
Lemma override_entry_name_value k v :
  IndexByte k equals_sign = None →
  entry_name (override_entry (k, v)) = Some k
  ∧ entry_value (override_entry (k, v)) = Some v.
Proof.
  intros Hk. rewrite override_entry_eq. unfold entry_name, entry_value.
  rewrite (IndexByte_append_fresh _ _ _ Hk). cbn [fmap option_fmap option_map].
  by rewrite str_take_append, str_drop_append.
Qed.

Lemma entry_name_no_equals kv k :
  entry_name kv = Some k → IndexByte k equals_sign = None.
Proof.
  unfold entry_name.
  destruct (IndexByte kv equals_sign) as [i|] eqn:Hi; [|discriminate].
  intros [= <-]. by apply IndexByte_str_take.
Qed.

Lemma entry_name_value kv k :
  entry_name kv = Some k → is_Some (entry_value kv).
Proof.
  unfold entry_name, entry_value.
  destruct (IndexByte kv equals_sign); [eauto|discriminate].
Qed.

(** Later entries win. *)
Lemma lookup_env_app l1 l2 k :
  lookup_env (l1 ++ l2) k
  = match lookup_env l2 k with
    | Some v => Some v
    | None => lookup_env l1 k
    end.
Proof.
  induction l1 as [|kv l1 IH]; cbn.
  - by destruct (lookup_env l2 k).
  - rewrite IH. by destruct (lookup_env l2 k).
Qed.

Lemma lookup_env_Some l k v :
  lookup_env l k = Some v →
  ∃ kv, kv ∈ l ∧ entry_name kv = Some k ∧ entry_value kv = Some v.
Proof.
  induction l as [|kv l IH]; cbn; [discriminate|].
  destruct (lookup_env l k) as [v'|] eqn:Hl.
  - intros [= <-]. destruct (IH eq_refl) as (kv' & Hin & Hn & Hv).
    exists kv'. split; [by right|done].
  - destruct (decide (entry_name kv = Some k)) as [Hn|]; [|discriminate].
    intros Hv. exists kv. split; [by left|done].
Qed.

Lemma lookup_env_is_Some l k kv :
  kv ∈ l → entry_name kv = Some k → is_Some (lookup_env l k).
Proof.
  intros Hin Hn. induction l as [|kv' l IH]; [by apply elem_of_nil in Hin|].
  cbn. apply elem_of_cons in Hin as [->|Hin].
  - destruct (lookup_env l k); [eauto|].
    rewrite decide_True by done. by eapply entry_name_value.
  - destruct (IH Hin) as [v ->]. eauto.
Qed.

Lemma lookup_env_names l k :
  is_Some (lookup_env l k) → IndexByte k equals_sign = None.
Proof.
  intros [v Hv]. apply lookup_env_Some in Hv as (kv & _ & Hn & _).
  by eapply entry_name_no_equals.
Qed.

Lemma parseEnv_loop_app newEnv kvs :
  parseEnv_loop newEnv kvs = newEnv ++ (override_entry <$> kvs).
Proof.
  revert newEnv. induction kvs as [|kv kvs IH]; intros newEnv; cbn.
  - by rewrite app_nil_r.
  - unfold parseEnv_loop in IH. rewrite IH. by rewrite <- app_assoc.
Qed.

End EnvFacts.

(** ** Run, Output and CombinedOutput *)
Module ExecSpec.
Import GoStrings GoError Exec Check Samples EnvFacts.

Lemma captured_stdout (c : Cmd) output :
  Stdout c = Some CaptureBuffer →
  (∀ w, Stderr c = Some w → w ≠ CaptureBuffer) →
  written_to CaptureBuffer (deliveries c output) = stream_bytes OnStdout output.
Proof.
  intros Hout Herr. unfold written_to, deliveries, stream_bytes.
  rewrite Hout.
  induction output as [|[st bytes] output IH]; [done|].
  cbn [omap list_omap fst snd]. destruct st.
  - cbn [fmap option_fmap option_map omap list_omap fst snd].
    rewrite !decide_True by done. cbn [concat]. by f_equal.
  - rewrite (decide_False (P := OnStderr = OnStdout)) by done.
    destruct (Stderr c) as [w|] eqn:Hw;
      cbn [fmap option_fmap option_map omap list_omap fst snd].
    + rewrite decide_False by (by apply Herr). done.
    + done.
Qed.

(** The bytes of all chunks, in the order the program wrote them. *)
Lemma written_to_same_writer (c : Cmd) w output :
  Stdout c = Some w → Stderr c = Some w →
  written_to w (deliveries c output) = concat (output.*2).
Proof.
  intros Hout Herr. unfold written_to, deliveries. rewrite Hout, Herr.
  induction output as [|[st bytes] output IH]; [done|].
  cbn [omap list_omap fst snd fmap list_fmap].
  destruct st; cbn [fmap option_fmap option_map omap list_omap fst snd];
    rewrite decide_True by done; cbn [concat]; by f_equal.
Qed.

Lemma deliveries_all_captured (c : Cmd) output :
  Stdout c = Some CaptureBuffer → Stderr c = Some CaptureBuffer →
  filter (λ d, d.1 ≠ CaptureBuffer) (deliveries c output) = [].
Proof.
  intros Hout Herr. unfold deliveries. rewrite Hout, Herr.
  induction output as [|[[] bytes] output IH]; [done| |];
    cbn [omap list_omap fst snd fmap option_fmap option_map];
    by rewrite filter_cons_False by (intros Hne; by apply Hne).
Qed.

Section WithOS.
Variable environ : list string.
Variable spawn : process_oracle.
Variable map_range : gmap string string → list (string * string).
(** [range] visits every pair of the map once, in some order. *)
Hypothesis map_range_perm : ∀ env, map_range env ≡ₚ map_to_list env.

Local Abbreviation launch := (launch environ spawn).
Local Abbreviation cannot_start := (cannot_start environ spawn).
Local Abbreviation exits_nonzero := (exits_nonzero environ spawn).

Lemma parseEnv_app env :
  parseEnv environ map_range env
  = environ ++ (override_entry <$> map_range env).
Proof. apply parseEnv_loop_app. Qed.

Lemma map_range_elem env k v :
  (k, v) ∈ map_range env ↔ env !! k = Some v.
Proof. rewrite map_range_perm. apply elem_of_map_to_list. Qed.

(** Among the appended entries there is one for each key. *)
Lemma override_lookup_is_Some env k v :
  env !! k = Some v → IndexByte k equals_sign = None →
  is_Some (lookup_env (override_entry <$> map_range env) k).
Proof.
  intros Hkv Hk.
  apply (lookup_env_is_Some _ _ (override_entry (k, v))).
  - apply list_elem_of_fmap. exists (k, v). split; [done|].
    by apply map_range_elem.
  - by apply override_entry_name_value.
Qed.

(** What [Run], [Output] and [CombinedOutput] return, in terms of what
    the operating system answers for the program, its arguments, the
    directory given and the merged environment. *)
Lemma Run_unfold cmd workDir env stdout stderr :
  Run environ spawn map_range cmd workDir env stdout stderr
  = match spawn (Path cmd) (Args cmd) workDir (parseEnv environ map_range env) with
    | StartFailed e => (Some e, [])
    | Exited code output =>
        (exit_error code,
         deliveries (Run_cmd environ map_range cmd workDir env stdout stderr)
           output)
    end.
Proof. reflexivity. Qed.

Lemma Output_unfold cmd workDir env stderr :
  let c := Output_cmd environ map_range cmd workDir env stderr in
  (Output environ spawn map_range cmd workDir env stderr).1
  = match Stdout c with
    | Some _ => (EmptyString, Some (ErrorString "exec: Stdout already set"))
    | None =>
        match launch c with
        | StartFailed e => (EmptyString, Some e)
        | Exited code output =>
            (string_of_bytes (stream_bytes OnStdout output), exit_error code)
        end
    end.
Proof.
  intros c. unfold Output, Cmd_Output, Cmd_Run. fold c.
  destruct (Stdout c) as [w|] eqn:Hout; [done|].
  change (Exec.launch environ spawn (set_Stdout c (Some CaptureBuffer)))
    with (launch c).
  destruct (launch c) as [e|code output]; [done|]. cbn [fst].
  rewrite captured_stdout; [done|done|].
  intros w. subst c. cbn. destruct stderr; intros [= <-]; done.
Qed.

Lemma CombinedOutput_unfold cmd workDir env :
  CombinedOutput environ spawn map_range cmd workDir env
  = match Stdout cmd, Stderr cmd with
    | Some _, _ =>
        ((EmptyString, Some (ErrorString "exec: Stdout already set")), [])
    | None, Some _ =>
        ((EmptyString, Some (ErrorString "exec: Stderr already set")), [])
    | None, None =>
        match spawn (Path cmd) (Args cmd) workDir
                (parseEnv environ map_range env) with
        | StartFailed e => ((EmptyString, Some e), [])
        | Exited code output =>
            ((string_of_bytes (concat (output.*2)), exit_error code), [])
        end
    end.
Proof.
  unfold CombinedOutput, Cmd_CombinedOutput, Cmd_Run.
  change (Stdout (CombinedOutput_cmd environ map_range cmd workDir env))
    with (Stdout cmd).
  change (Stderr (CombinedOutput_cmd environ map_range cmd workDir env))
    with (Stderr cmd).
  destruct (Stdout cmd); [done|]. destruct (Stderr cmd); [done|].
  change (Exec.launch _ _ _)
    with (spawn (Path cmd) (Args cmd) workDir (parseEnv environ map_range env)).
  destruct (spawn _ _ _ _) as [e|code output]; [done|].
  rewrite written_to_same_writer by done.
  by rewrite deliveries_all_captured by done.
Qed.

(** C3. [Run], [Output] and [CombinedOutput] start the program with an
    environment that is the environment of the process followed by one
    [NAME=VALUE] entry for each pair of the override map (in the order
    [range] yields them), and what they return is what the operating
    system answers for that environment. With an empty map it is the
    environment of the process. For an inherited variable that is
    overridden, the value the child sees (the last entry wins) is that
    of an appended entry, not the inherited one; when no key contains
    [=], the child sees for every key of the map exactly the value of
    the map. *)
Theorem child_env_inherited_then_overrides (cmd : Cmd) (workDir : string)
    (env : gmap string string) (stdout stderr : option nat) :
  let merged := parseEnv environ map_range env in
  (∃ kvs, kvs ≡ₚ map_to_list env
          ∧ merged = environ ++ ((λ kv, (kv.1 +:+ "=") +:+ kv.2) <$> kvs))
  ∧ length merged = length environ + size env
  ∧ launch (Run_cmd environ map_range cmd workDir env stdout stderr)
    = spawn (Path cmd) (Args cmd) workDir merged
  ∧ launch (Output_cmd environ map_range cmd workDir env stderr)
    = spawn (Path cmd) (Args cmd) workDir merged
  ∧ launch (CombinedOutput_cmd environ map_range cmd workDir env)
    = spawn (Path cmd) (Args cmd) workDir merged
  ∧ (env = ∅ → merged = environ)
  ∧ (∀ k v, env !! k = Some v → is_Some (lookup_env environ k) →
       ∃ k' v', env !! k' = Some v'
                ∧ entry_name ((k' +:+ "=") +:+ v') = Some k
                ∧ lookup_env merged k = entry_value ((k' +:+ "=") +:+ v'))
  ∧ (names_ok env →
     ∀ k v, env !! k = Some v → lookup_env merged k = Some v)
  ∧ Run environ spawn map_range cmd workDir env stdout stderr
    = match spawn (Path cmd) (Args cmd) workDir merged with
      | StartFailed e => (Some e, [])
      | Exited code output =>
          (exit_error code,
           deliveries (Run_cmd environ map_range cmd workDir env stdout stderr)
             output)
      end
  ∧ (Output environ spawn map_range cmd workDir env stderr).1
    = match Stdout cmd with
      | Some _ => (EmptyString, Some (ErrorString "exec: Stdout already set"))
      | None =>
          match spawn (Path cmd) (Args cmd) workDir merged with
          | StartFailed e => (EmptyString, Some e)
          | Exited code output =>
              (string_of_bytes (stream_bytes OnStdout output), exit_error code)
          end
      end
  ∧ CombinedOutput environ spawn map_range cmd workDir env
    = match Stdout cmd, Stderr cmd with
      | Some _, _ =>
          ((EmptyString, Some (ErrorString "exec: Stdout already set")), [])
      | None, Some _ =>
          ((EmptyString, Some (ErrorString "exec: Stderr already set")), [])
      | None, None =>
          match spawn (Path cmd) (Args cmd) workDir merged with
          | StartFailed e => ((EmptyString, Some e), [])
          | Exited code output =>
              ((string_of_bytes (concat (output.*2)), exit_error code), [])
          end
      end.
Proof.
  intros merged. subst merged.
  pose proof (Run_unfold cmd workDir env stdout stderr) as HRun.
  pose proof (Output_unfold cmd workDir env stderr) as HOut.
  pose proof (CombinedOutput_unfold cmd workDir env) as HComb.
  cbv zeta in HOut.
  change (Stdout (Output_cmd environ map_range cmd workDir env stderr))
    with (Stdout cmd) in HOut.
  change (launch (Output_cmd environ map_range cmd workDir env stderr))
    with (spawn (Path cmd) (Args cmd) workDir (parseEnv environ map_range env))
    in HOut.
  split; [|split; [|split; [|split; [|split; [|split; [|split; [|split;
    [|split; [exact HRun|split; [exact HOut|exact HComb]]]]]]]]]];
    clear HRun HOut HComb; rewrite parseEnv_app.
  - exists (map_range env). split; [apply map_range_perm|done].
  - rewrite length_app, length_fmap, map_range_perm.
    by rewrite length_map_to_list.
  - unfold Exec.launch, child_env, Run_cmd. cbn. by rewrite parseEnv_app.
  - unfold Exec.launch, child_env, Output_cmd. cbn. by rewrite parseEnv_app.
  - unfold Exec.launch, child_env, CombinedOutput_cmd. cbn. by rewrite parseEnv_app.
  - intros ->. pose proof (map_range_perm ∅) as Hperm.
    rewrite map_to_list_empty in Hperm. apply Permutation_nil_r in Hperm.
    rewrite Hperm. cbn. by rewrite app_nil_r.
  - intros k v Hkv Hinh. apply lookup_env_names in Hinh as Hk.
    destruct (override_lookup_is_Some env k v Hkv Hk) as [v1 Hv1].
    rewrite lookup_env_app, Hv1.
    apply lookup_env_Some in Hv1 as (kv & Hin & Hname & Hval).
    apply list_elem_of_fmap in Hin as ([k' v'] & -> & Hin).
    apply map_range_elem in Hin. exists k', v'.
    unfold override_entry in Hname, Hval. cbn [fst snd] in Hname, Hval.
    by rewrite Hval.
  - intros Hok k v Hkv. pose proof (Hok k v Hkv) as Hk. cbn in Hk.
    destruct (override_lookup_is_Some env k v Hkv Hk) as [v1 Hv1].
    rewrite lookup_env_app, Hv1.
    apply lookup_env_Some in Hv1 as (kv & Hin & Hname & Hval).
    apply list_elem_of_fmap in Hin as ([k' v'] & -> & Hin).
    apply map_range_elem in Hin. pose proof (Hok k' v' Hin) as Hk'. cbn in Hk'.
    destruct (override_entry_name_value k' v' Hk') as [Hn' Hv'].
    rewrite Hn' in Hname. injection Hname as ->.
    rewrite Hv' in Hval. injection Hval as <-. congruence.
Qed.

(** C8. [Output] returns a non-nil error exactly when no subprocess
    comes to run or the subprocess leaves a status other than zero.
    When the program cannot be started the error is that of the
    start. When it ran, the text is what it wrote to its standard
    output, whatever the status, and the error is nil for status zero
    and an exit error otherwise. *)
Theorem Output_error_iff_failure (cmd : Cmd) (workDir : string)
    (env : gmap string string) (stderr : option nat) :
  let c := Output_cmd environ map_range cmd workDir env stderr in
  let res := (Output environ spawn map_range cmd workDir env stderr).1 in
  (res.2 ≠ None ↔ cannot_start c ∨ exits_nonzero c)
  ∧ (∀ e, Stdout cmd = None → launch c = StartFailed e →
          res = (EmptyString, Some e))
  ∧ (∀ output, Stdout cmd = None → launch c = Exited 0 output →
          res = (string_of_bytes (stream_bytes OnStdout output), None))
  ∧ (∀ code output, Stdout cmd = None → launch c = Exited code output →
          code ≠ 0%Z →
          res = (string_of_bytes (stream_bytes OnStdout output),
                 Some (ExitError code))).
Proof.
  intros c res. subst res. rewrite Output_unfold. fold c.
  change (Stdout cmd) with (Stdout c).
  unfold cannot_start, exits_nonzero.
  split; [|split; [|split]].
  - destruct (Stdout c) as [w|] eqn:Hout.
    { split; [eauto|done]. }
    destruct (launch c) as [e|code output] eqn:Hrun.
    { split; [eauto|done]. }
    cbn [snd]. unfold exit_error. destruct (decide (code = 0%Z)) as [->|Hcode].
    + split; [done|]. intros [[[w Hw]|[e He]]|[_ (code & out & Heq & Hne)]];
        [discriminate|discriminate|congruence].
    + split; [|done]. intros _. right. eauto.
  - intros e -> ->. done.
  - intros output -> ->. done.
  - intros code output -> -> Hcode. unfold exit_error.
    by rewrite decide_False.
Qed.
End WithOS.

Lemma child_env_inherited_then_overrides_witness :
  lookup_env (parseEnv environ_example map_to_list env_example) "FOO"
  = Some "bar"%string
  ∧ (Output environ_example spawn_printenv map_to_list
       (cmd_example "/usr/bin/printenv") "/" env_example None).1
    = ("bar"%string, None)
  ∧ (Run environ_example spawn_printenv map_to_list
       (cmd_example "/usr/bin/printenv") "/" env_example (Some 1) None)
    = (None, [(Sink 1, [x62; x61; x72]%byte)]).
Proof.
  destruct (child_env_inherited_then_overrides environ_example spawn_printenv
              map_to_list
              (λ env, reflexivity (map_to_list env))
              (cmd_example "/usr/bin/printenv") "/" env_example (Some 1) None)
    as (_ & _ & _ & _ & _ & _ & _ & Hok & HRun & HOut & _).
  split; [|split].
  - apply Hok.
    + unfold names_ok, env_example. apply map_Forall_singleton. reflexivity.
    + reflexivity.
  - exact (eq_trans HOut eq_refl).
  - exact (eq_trans HRun eq_refl).
Defined.

Lemma Output_error_iff_failure_witness :
  (Output environ_example spawn_example map_to_list
     (cmd_example "/bin/echo") "/" env_example (Some 2)).1
  = ("hello"%string, None)
  ∧ (Output environ_example spawn_example map_to_list
       (cmd_example "/bin/false") "/" env_example (Some 2)).1
    = ("hel"%string, Some (ExitError 1))
  ∧ (Output environ_example spawn_example map_to_list
       (cmd_example "/bin/nothing") "/" env_example (Some 2)).1
    = (EmptyString, Some (ExecError "/bin/nothing" ENOENT)).
Proof.
  destruct (Output_error_iff_failure environ_example spawn_example map_to_list
              (cmd_example "/bin/echo") "/" env_example (Some 2))
    as (_ & _ & Hzero & _).
  destruct (Output_error_iff_failure environ_example spawn_example map_to_list
              (cmd_example "/bin/false") "/" env_example (Some 2))
    as (_ & _ & _ & Hnonzero).
  destruct (Output_error_iff_failure environ_example spawn_example map_to_list
              (cmd_example "/bin/nothing") "/" env_example (Some 2))
    as (_ & Hstart & _).
  split; [|split].
  - apply (Hzero [(OnStdout, hello)]); reflexivity.
  - apply (Hnonzero 1%Z [(OnStdout, [x68; x65; x6c]%byte); (OnStderr, [x21]%byte)]);
      [reflexivity|reflexivity|discriminate].
  - apply Hstart; reflexivity.
Defined.

End ExecSpec.

(** ** More about ReadLines *)
Module ReadLinesMore.
Import GoStrings GoSlice GoError OS Check LinesText MoreSamples.
Import SplitFacts FilterFacts EnvFacts.

Lemma nonempty_lines_lines_of s : nonempty_lines s = filter keep (lines_of s).
Proof. unfold nonempty_lines. by rewrite Split_newline_lines_of. Qed.

(** A newline cuts the text in two: the pieces of the whole are those of
    the part before it followed by those of the part after it. *)
Lemma lines_of_app_newline s1 s2 :
  lines_of (s1 +:+ String newline s2) = lines_of s1 ++ lines_of s2.
Proof.
  induction s1 as [|a s1 IH].
  - rewrite append_Empty. cbn [lines_of]. by rewrite Ascii.eqb_refl.
  - rewrite append_String. cbn [lines_of].
    destruct (Ascii.eqb a newline); rewrite IH; [done|].
    pose proof (lines_of_nonempty s1). by destruct (lines_of s1).
Qed.

Lemma lines_of_no_newline l : IndexByte l newline = None → lines_of l = [l].
Proof.
  induction l as [|a l IH]; [done|]. cbn [IndexByte lines_of].
  destruct (Ascii.eqb a newline); [discriminate|].
  destruct (IndexByte l newline); [discriminate|].
  intros _. by rewrite IH.
Qed.

Lemma lines_of_pieces_no_newline s :
  Forall (λ l, IndexByte l newline = None) (lines_of s).
Proof.
  induction s as [|a s IH]; cbn [lines_of].
  - by constructor.
  - destruct (Ascii.eqb a newline) eqn:Ha; [by constructor|].
    pose proof (lines_of_nonempty s).
    destruct (lines_of s) as [|l ls]; [done|].
    inversion IH as [|? ? Hl Hls]; subst.
    constructor; [|done]. cbn [IndexByte]. rewrite Ha. by rewrite Hl.
Qed.

Lemma join_lines_of s : join (lines_of s) = strip_newlines s.
Proof.
  induction s as [|a s IH]; [done|]. cbn [lines_of strip_newlines].
  destruct (Ascii.eqb a newline).
  - cbn [join]. by rewrite append_Empty.
  - rewrite <- IH. pose proof (lines_of_nonempty s).
    destruct (lines_of s) as [|l ls]; [done|]. cbn [join].
    by rewrite append_String.
Qed.

Lemma join_filter_keep ls : join (filter keep ls) = join ls.
Proof.
  induction ls as [|l ls IH]; [done|].
  destruct (decide (keep l)) as [Hk|Hk].
  - rewrite filter_cons_True by done. cbn [join]. by rewrite IH.
  - rewrite filter_cons_False by done. cbn [join]. rewrite IH.
    unfold keep in Hk. by destruct l; [|exfalso; by apply Hk].
Qed.

Lemma nonempty_lines_unlines ls :
  Forall proper_line ls → nonempty_lines (unlines ls) = ls.
Proof.
  rewrite nonempty_lines_lines_of.
  induction 1 as [|l ls [Hne Hnl] _ IH]; [done|].
  cbn [unlines]. rewrite lines_of_app_newline, (lines_of_no_newline l Hnl).
  cbn [app]. rewrite filter_cons_True by done. by rewrite IH.
Qed.

Lemma nonempty_lines_proper s : Forall proper_line (nonempty_lines s).
Proof.
  rewrite nonempty_lines_lines_of.
  pose proof (lines_of_pieces_no_newline s) as Hall.
  induction Hall as [|l ls Hl _ IH]; [constructor|].
  destruct (decide (keep l)) as [Hk|Hk].
  - rewrite filter_cons_True by done. by constructor.
  - by rewrite filter_cons_False by done.
Qed.

Lemma strip_newlines_empty s :
  strip_newlines s = EmptyString ↔ Count s newline = String.length s.
Proof.
  assert (∀ t, Count t newline ≤ String.length t) as Hle.
  { induction t as [|b t IHt]; simpl; [lia|].
    destruct (Ascii.eqb b newline); lia. }
  induction s as [|a s IH]; [done|]. cbn [strip_newlines Count String.length].
  specialize (Hle s). destruct (Ascii.eqb a newline).
  - rewrite IH. lia.
  - split; [discriminate|lia].
Qed.

Lemma string_of_bytes_cons b bs :
  string_of_bytes (b :: bs) = String (ascii_of_byte b) (string_of_bytes bs).
Proof. reflexivity. Qed.

Lemma string_of_bytes_app bs1 bs2 :
  string_of_bytes (bs1 ++ bs2) = string_of_bytes bs1 +:+ string_of_bytes bs2.
Proof.
  induction bs1 as [|b bs1 IH]; [done|].
  cbn [app]. rewrite !string_of_bytes_cons, append_String. by rewrite IH.
Qed.

Lemma newline_byte b : Ascii.eqb (ascii_of_byte b) newline = true ↔ b = x0a.
Proof.
  rewrite Ascii.eqb_eq. split.
  - intros Hb. rewrite <- (byte_of_ascii_of_byte b), Hb. reflexivity.
  - intros ->. reflexivity.
Qed.

Lemma strip_newlines_bytes content :
  strip_newlines (string_of_bytes content) = EmptyString
  ↔ Forall (λ b, b = x0a) content.
Proof.
  induction content as [|b bs IH]; [by split; [constructor|]|].
  rewrite string_of_bytes_cons. cbn [strip_newlines].
  destruct (Ascii.eqb (ascii_of_byte b) newline) eqn:Hb.
  - apply newline_byte in Hb as ->. rewrite IH. split.
    + by constructor.
    + by inversion 1.
  - split; [discriminate|]. inversion 1 as [|? ? Hx _]; subst.
    assert (Ascii.eqb (ascii_of_byte x0a) newline = true) by by apply newline_byte.
    congruence.
Qed.

Lemma ReadLines_result_proper (fs : filesystem) filename lines err :
  ReadLines fs filename = Some (lines, err) → Forall proper_line lines.
Proof.
  unfold ReadLines. destruct (ReadFile fs filename) as [content|e].
  - rewrite ReadLines_lines_spec. cbn. intros [= <- _].
    apply nonempty_lines_proper.
  - intros [= <- _]. constructor.
Qed.

Lemma ReadLines_of_unlines (fs : filesystem) filename ls :
  Forall proper_line ls →
  ReadFile fs filename = Ok (list_byte_of_string (unlines ls)) →
  ReadLines fs filename = Some (ls, None).
Proof.
  intros Hls Hread. rewrite (ReadLinesSpec.ReadLines_Ok _ _ _ Hread).
  unfold string_of_bytes. rewrite string_of_list_byte_of_string.
  by rewrite nonempty_lines_unlines.
Qed.

(** X1. Whatever [ReadLines] returns, with or without an error, every
    string of the result is non-empty and holds no newline byte. *)
Theorem ReadLines_lines_nonempty_newline_free (fs : filesystem) filename
    lines err :
  ReadLines fs filename = Some (lines, err) →
  Forall (λ l, l ≠ EmptyString ∧ IndexByte l newline = None) lines.
Proof. apply ReadLines_result_proper. Qed.

Lemma ReadLines_lines_nonempty_newline_free_witness :
  Forall (λ l, l ≠ EmptyString ∧ IndexByte l newline = None)
    ["a"%string; "b c"%string].
Proof.
  apply (ReadLines_lines_nonempty_newline_free fs_texts "/both" _ None).
  reflexivity.
Defined.

(** X2. A file whose content is the content of one file, a newline, and
    the content of another reads as the lines of the first followed by
    the lines of the second. *)
Theorem ReadLines_of_joined_files (fs : filesystem) f1 f2 f c1 c2 :
  ReadFile fs f1 = Ok c1 →
  ReadFile fs f2 = Ok c2 →
  ReadFile fs f = Ok (c1 ++ x0a :: c2) →
  ∃ l1 l2,
    ReadLines fs f1 = Some (l1, None)
    ∧ ReadLines fs f2 = Some (l2, None)
    ∧ ReadLines fs f = Some (l1 ++ l2, None).
Proof.
  intros H1 H2 H.
  exists (nonempty_lines (string_of_bytes c1)), (nonempty_lines (string_of_bytes c2)).
  rewrite (ReadLinesSpec.ReadLines_Ok _ _ _ H1), (ReadLinesSpec.ReadLines_Ok _ _ _ H2),
    (ReadLinesSpec.ReadLines_Ok _ _ _ H).
  split; [done|]. split; [done|]. do 2 f_equal.
  rewrite !nonempty_lines_lines_of, string_of_bytes_app, string_of_bytes_cons.
  change (ascii_of_byte x0a) with newline.
  by rewrite lines_of_app_newline, filter_app.
Qed.

Lemma ReadLines_of_joined_files_witness :
  ∃ l1 l2,
    ReadLines fs_texts "/one" = Some (l1, None)
    ∧ ReadLines fs_texts "/two" = Some (l2, None)
    ∧ ReadLines fs_texts "/both" = Some (l1 ++ l2, None).
Proof.
  apply (ReadLines_of_joined_files fs_texts "/one" "/two" "/both" bytes_a bytes_b_c);
    reflexivity.
Defined.

(** X3. Round trip: a file that holds lines, each non-empty and without
    a newline and each followed by one newline, reads back as exactly
    those lines. *)
Theorem ReadLines_reads_back_written_lines (fs : filesystem) filename ls :
  Forall (λ l, l ≠ EmptyString ∧ IndexByte l newline = None) ls →
  ReadFile fs filename = Ok (list_byte_of_string (unlines ls)) →
  ReadLines fs filename = Some (ls, None).
Proof. apply ReadLines_of_unlines. Qed.

Lemma ReadLines_reads_back_written_lines_witness :
  ReadLines fs_written "/written" = Some (two_lines, None).
Proof.
  apply (ReadLines_reads_back_written_lines fs_written "/written" two_lines).
  - repeat constructor; discriminate.
  - reflexivity.
Defined.

(** X4. Writing the lines [ReadLines] returned back, one per line, and
    reading that file gives the same lines again: the result of
    [ReadLines] is a normal form of the file. *)
Theorem ReadLines_reread_is_stable (fs fs' : filesystem) f g lines err :
  ReadLines fs f = Some (lines, err) →
  ReadFile fs' g = Ok (list_byte_of_string (unlines lines)) →
  ReadLines fs' g = Some (lines, None).
Proof.
  intros Hrun Hread. apply ReadLines_of_unlines; [|done].
  by eapply ReadLines_result_proper.
Qed.

Lemma ReadLines_reread_is_stable_witness :
  ReadLines fs_written "/written" = Some (two_lines, None).
Proof.
  apply (ReadLines_reread_is_stable fs_texts fs_written "/both" "/written"
           two_lines None); reflexivity.
Defined.

(** X5. For a file that can be read, the result is empty exactly when
    every byte of the file is a newline. *)
Theorem ReadLines_empty_iff_only_newlines (fs : filesystem) filename content :
  ReadFile fs filename = Ok content →
  ReadLines fs filename = Some ([], None) ↔ Forall (λ b, b = x0a) content.
Proof.
  intros Hread. rewrite (ReadLinesSpec.ReadLines_Ok _ _ _ Hread).
  rewrite <- strip_newlines_bytes. split.
  - intros [= Hnil].
    by rewrite <- join_lines_of, <- join_filter_keep, <- nonempty_lines_lines_of, Hnil.
  - intros Hstrip. do 2 f_equal. rewrite nonempty_lines_lines_of.
    apply strip_newlines_empty, lines_of_all_newlines in Hstrip.
    induction Hstrip as [|l ls -> _ IH]; [done|].
    by rewrite filter_cons_False by (intros Hk; by apply Hk).
Qed.

Lemma ReadLines_empty_iff_only_newlines_witness :
  ReadLines fs_texts "/blank" = Some ([], None)
  ∧ ¬ Forall (λ b, b = x0a) bytes_a.
Proof.
  split.
  - apply (ReadLines_empty_iff_only_newlines fs_texts "/blank"
             [x0a; x0a; x0a]%byte); [reflexivity|].
    repeat constructor.
  - intros Hall.
    apply (ReadLines_empty_iff_only_newlines fs_texts "/one" bytes_a) in Hall;
      [discriminate|reflexivity].
Defined.

(** X6. [ReadLines] loses and changes no byte but the newlines: the
    returned lines, put one after the other, are the content of the file
    without its newline bytes. *)
Theorem ReadLines_keeps_all_other_bytes (fs : filesystem) filename content :
  ReadFile fs filename = Ok content →
  ∃ lines,
    ReadLines fs filename = Some (lines, None)
    ∧ join lines = strip_newlines (string_of_bytes content).
Proof.
  intros Hread. rewrite (ReadLinesSpec.ReadLines_Ok _ _ _ Hread).
  eexists. split; [done|].
  by rewrite nonempty_lines_lines_of, join_filter_keep, join_lines_of.
Qed.

Lemma ReadLines_keeps_all_other_bytes_witness :
  ∃ lines,
    ReadLines fs_texts "/both" = Some (lines, None)
    ∧ join lines = "ab c"%string.
Proof.
  apply (ReadLines_keeps_all_other_bytes fs_texts "/both" bytes_joined).
  reflexivity.
Defined.

End ReadLinesMore.

(** ** More about CopyFile, FileExists and DirExists *)
Module FileMore.
Import GoStrings GoError OS Check LinesText Samples MoreSamples FileSpec.

Lemma Open_cases (fs : filesystem) src :
  Open fs src
  = match fs !! src with
    | None => Err (PathError "open" src ENOENT)
    | Some (Fault e) => Err (PathError "open" src e)
    | Some Directory => Ok {| h_path := src; h_pos := 0 |}
    | Some (File mode _) =>
        if has_flag mode S_IRUSR then Ok {| h_path := src; h_pos := 0 |}
        else Err (PathError "open" src EACCES)
    end.
Proof.
  destruct create_wronly_flags as (_ & _ & _ & Hrc & Hrw).
  unfold Open, OpenFile. rewrite Hrc, Hrw.
  destruct (fs !! src) as [[mode B| |e]|]; cbn [snd]; try done.
  by destruct (has_flag mode S_IRUSR).
Qed.

Lemma OpenFile_create_wronly_cases (fs : filesystem) dst perm :
  OpenFile fs dst (Z.lor O_CREATE O_WRONLY) perm
  = match fs !! dst with
    | None => (<[dst := File perm []]> fs, Ok {| h_path := dst; h_pos := 0 |})
    | Some (Fault e) => (fs, Err (PathError "open" dst e))
    | Some Directory => (fs, Err (PathError "open" dst EISDIR))
    | Some (File mode _) =>
        if has_flag mode S_IWUSR then (fs, Ok {| h_path := dst; h_pos := 0 |})
        else (fs, Err (PathError "open" dst EACCES))
    end.
Proof.
  destruct create_wronly_flags as (Hc & Hw & Ht & _ & _).
  unfold OpenFile. rewrite Hc, Hw, Ht.
  by destruct (fs !! dst) as [[mode B| |e]|].
Qed.

(** [CopyFile], case by case on what [src] and [dst] are. *)
Lemma CopyFile_cases (fs : filesystem) dst src :
  CopyFile fs dst src
  = match fs !! src with
    | None => (fs, Some (PathError "open" src ENOENT))
    | Some (Fault e) => (fs, Some (PathError "open" src e))
    | Some (File smode B) =>
        if has_flag smode S_IRUSR then
          match fs !! dst with
          | None => (<[dst := File perm_0644 B]> fs, None)
          | Some (File dmode old) =>
              if has_flag dmode S_IWUSR then
                (<[dst := File dmode (B ++ drop (length B) old)]> fs, None)
              else (fs, Some (PathError "open" dst EACCES))
          | Some Directory => (fs, Some (PathError "open" dst EISDIR))
          | Some (Fault e) => (fs, Some (PathError "open" dst e))
          end
        else (fs, Some (PathError "open" src EACCES))
    | Some Directory =>
        match fs !! dst with
        | None =>
            (<[dst := File perm_0644 []]> fs,
             Some (PathSyscallError "write" dst "copy_file_range" EISDIR))
        | Some (File dmode old) =>
            if has_flag dmode S_IWUSR then
              (fs, Some (PathSyscallError "write" dst "copy_file_range" EISDIR))
            else (fs, Some (PathError "open" dst EACCES))
        | Some Directory => (fs, Some (PathError "open" dst EISDIR))
        | Some (Fault e) => (fs, Some (PathError "open" dst e))
        end
    end.
Proof.
  unfold CopyFile. rewrite Open_cases, OpenFile_create_wronly_cases.
  destruct (fs !! src) as [[smode B| |se]|] eqn:Hsrc; [| |done|done].
  - destruct (has_flag smode S_IRUSR); [|done].
    destruct (fs !! dst) as [[dmode old| |de]|] eqn:Hdst; [| done|done|].
    + destruct (has_flag dmode S_IWUSR); [|done].
      unfold Copy, read_all, write. cbn [h_path h_pos].
      by rewrite Hsrc, Hdst, drop_0, write_at_0.
    + assert (dst ≠ src) as Hne by congruence.
      unfold Copy, read_all, write. cbn [h_path h_pos].
      rewrite lookup_insert_ne by done. rewrite Hsrc, lookup_insert_eq, drop_0.
      rewrite write_at_0, drop_nil, app_nil_r. by rewrite insert_insert_eq.
  - destruct (fs !! dst) as [[dmode old| |de]|] eqn:Hdst; [| done|done|].
    + destruct (has_flag dmode S_IWUSR); [|done].
      unfold Copy. cbn [h_path h_pos]. by rewrite Hsrc.
    + assert (dst ≠ src) as Hne by congruence.
      unfold Copy. cbn [h_path h_pos].
      rewrite lookup_insert_ne by done. by rewrite Hsrc.
Qed.

Lemma perm_0644_flags :
  has_flag perm_0644 S_IRUSR = true ∧ has_flag perm_0644 S_IWUSR = true.
Proof. by vm_compute. Qed.

(** X7. [CopyFile] never changes [src]: whether it succeeds or fails,
    and also when [dst] is [src] itself, [src] resolves afterwards to
    what it resolved to before, with the same bytes and the same mode. *)
Theorem CopyFile_never_changes_src (fs : filesystem) dst src :
  (CopyFile fs dst src).1 !! src = fs !! src
  ∧ content (CopyFile fs dst src).1 src = content fs src.
Proof.
  assert ((CopyFile fs dst src).1 !! src = fs !! src) as Hsame.
  { rewrite CopyFile_cases.
    destruct (fs !! src) as [[smode B| |se]|] eqn:Hsrc; cbn [fst]; try done.
    - destruct (has_flag smode S_IRUSR); [|done].
      destruct (fs !! dst) as [[dmode old| |de]|] eqn:Hdst; cbn [fst]; try done.
      + destruct (has_flag dmode S_IWUSR); [|done]. cbn [fst].
        destruct (decide (dst = src)) as [->|Hne].
        * rewrite lookup_insert_eq. rewrite Hsrc in Hdst.
          injection Hdst as <- <-. by rewrite drop_all, app_nil_r.
        * rewrite lookup_insert_ne by done. done.
      + assert (dst ≠ src) as Hne by congruence.
        rewrite lookup_insert_ne by done. done.
    - destruct (fs !! dst) as [[dmode old| |de]|] eqn:Hdst; cbn [fst]; try done.
      + by destruct (has_flag dmode S_IWUSR).
      + assert (dst ≠ src) as Hne by congruence.
        rewrite lookup_insert_ne by done. done. }
  split; [done|]. unfold content. by rewrite Hsame.
Qed.

(** X8. When [src] cannot be opened, [CopyFile] returns the error of the
    open and nothing is created or changed: [dst] is not touched. When
    [src] is a directory and [dst] does not exist but can be created,
    [CopyFile] returns an error and leaves [dst] behind as an empty
    file. *)
Theorem CopyFile_failure_effect (fs : filesystem) dst src :
  (∀ e, Open fs src = Err e → CopyFile fs dst src = (fs, Some e))
  ∧ (∀ fs1 to,
       fs !! src = Some Directory → fs !! dst = None →
       OpenFile fs dst (Z.lor O_CREATE O_WRONLY) perm_0644 = (fs1, Ok to) →
       ∃ e, CopyFile fs dst src = (fs1, Some e)
            ∧ content fs1 dst = Some []).
Proof.
  split.
  - intros e Hopen. unfold CopyFile. by rewrite Hopen.
  - intros fs1 to Hsrc Hdst Hcreate.
    rewrite OpenFile_create_wronly_cases, Hdst in Hcreate.
    injection Hcreate as <- <-.
    rewrite CopyFile_cases, Hsrc, Hdst. eexists. split; [done|].
    unfold content. by rewrite lookup_insert_eq.
Qed.

Lemma CopyFile_failure_effect_witness :
  CopyFile fs_texts "/new" "/missing"
  = (fs_texts, Some (PathError "open" "/missing" ENOENT))
  ∧ ∃ e, CopyFile fs_texts "/new" "/dir"
         = (<["/new"%string := File perm_0644 []]> fs_texts, Some e)
         ∧ content (<["/new"%string := File perm_0644 []]> fs_texts) "/new"
           = Some [].
Proof.
  destruct (CopyFile_failure_effect fs_texts "/new" "/missing") as [Hopen _].
  destruct (CopyFile_failure_effect fs_texts "/new" "/dir") as [_ Hdir].
  split.
  - apply Hopen. reflexivity.
  - apply (Hdir _ {| h_path := "/new"; h_pos := 0 |}); reflexivity.
Defined.

(** X9. Copying a path onto itself never changes the file system: the
    file is opened without truncation and its bytes are written over
    themselves. *)
Theorem CopyFile_onto_itself (fs : filesystem) p : (CopyFile fs p p).1 = fs.
Proof.
  rewrite CopyFile_cases.
  destruct (fs !! p) as [[mode B| |e]|] eqn:Hp; cbn [fst]; try done.
  destruct (has_flag mode S_IRUSR); [|done].
  destruct (has_flag mode S_IWUSR); [|done]. cbn [fst].
  rewrite drop_all, app_nil_r. by apply insert_id.
Qed.

(** X10. [CopyFile] is idempotent: after a successful copy, the same
    copy succeeds again and changes nothing. *)
Theorem CopyFile_idempotent (fs fs1 : filesystem) dst src :
  CopyFile fs dst src = (fs1, None) → CopyFile fs1 dst src = (fs1, None).
Proof.
  destruct perm_0644_flags as [Hr644 Hw644].
  rewrite !CopyFile_cases.
  destruct (fs !! src) as [[smode B| |se]|] eqn:Hsrc; try done.
  - destruct (has_flag smode S_IRUSR) eqn:Hr; [|done].
    destruct (fs !! dst) as [[dmode old| |de]|] eqn:Hdst; try done.
    + destruct (has_flag dmode S_IWUSR) eqn:Hw; [|done].
      intros [= <-].
      destruct (decide (dst = src)) as [->|Hne].
      * rewrite Hsrc in Hdst. injection Hdst as <- <-.
        rewrite !lookup_insert_eq, Hr, Hw.
        rewrite !drop_all, !app_nil_r. by rewrite insert_insert_eq.
      * rewrite lookup_insert_ne by done. rewrite Hsrc, Hr.
        rewrite lookup_insert_eq, Hw.
        rewrite drop_app_length. by rewrite insert_insert_eq.
    + assert (dst ≠ src) as Hne by congruence.
      intros [= <-]. rewrite lookup_insert_ne by done.
      rewrite Hsrc, Hr, lookup_insert_eq, Hw644.
      rewrite drop_all, app_nil_r. by rewrite insert_insert_eq.
  - repeat case_match; done.
Qed.

Lemma CopyFile_idempotent_witness :
  CopyFile (CopyFile fs_copy "/dst" "/src").1 "/dst" "/src"
  = ((CopyFile fs_copy "/dst" "/src").1, None).
Proof. apply (CopyFile_idempotent fs_copy). reflexivity. Defined.

(** X11. [CopyFile] does not copy permissions onto a destination that
    exists: after a successful copy such a destination has the mode it
    had before, whatever the mode of [src]. *)
Theorem CopyFile_mode_of_dst (fs fs' : filesystem) dst src dmode old :
  CopyFile fs dst src = (fs', None) →
  fs !! dst = Some (File dmode old) →
  ∃ data, fs' !! dst = Some (File dmode data).
Proof.
  rewrite CopyFile_cases. intros Hcopy Hdst. rewrite Hdst in Hcopy.
  destruct (fs !! src) as [[smode B| |se]|]; try done.
  - destruct (has_flag smode S_IRUSR); [|done].
    destruct (has_flag dmode S_IWUSR); [|done].
    injection Hcopy as <-. rewrite lookup_insert_eq. eauto.
  - by destruct (has_flag dmode S_IWUSR).
Qed.

Lemma CopyFile_mode_of_dst_witness :
  ∃ data, (CopyFile fs_modes "/priv" "/pub").1 !! "/priv"%string
          = Some (File 384 data).
Proof.
  apply (CopyFile_mode_of_dst fs_modes (CopyFile fs_modes "/priv" "/pub").1
           "/priv" "/pub" 384%Z bytes_b_c); reflexivity.
Defined.

(** X12. What a successful [CopyFile] leaves at [dst]: the bytes of
    [src], followed by the old bytes of [dst] beyond the length of
    [src]. The destination equals the source exactly when its old
    content was not longer than the source. *)
Theorem CopyFile_success_contract (fs fs' : filesystem) dst src :
  CopyFile fs dst src = (fs', None) →
  ∃ B,
    content fs src = Some B
    ∧ content fs' dst
      = Some (B ++ drop (length B) (default [] (content fs dst)))
    ∧ (content fs' dst = Some B
       ↔ length (default [] (content fs dst)) ≤ length B).
Proof.
  intros Hcopy.
  destruct (CopyFile_success_content _ _ _ _ Hcopy) as (mode & B & Hsrc & Hdst).
  exists B. split; [unfold content; by rewrite Hsrc|]. split; [done|].
  rewrite Hdst. split.
  - intros [= Heq]. apply (f_equal length) in Heq.
    rewrite length_app, length_drop in Heq. lia.
  - intros Hlen. rewrite drop_ge by done. by rewrite app_nil_r.
Qed.

Lemma CopyFile_success_contract_witness :
  ∃ B, content fs_copy "/src" = Some B
       ∧ content (CopyFile fs_copy "/dst" "/src").1 "/dst"
         = Some (B ++ drop (length B) (default [] (content fs_copy "/dst")))
       ∧ (content (CopyFile fs_copy "/dst" "/src").1 "/dst" = Some B
          ↔ length (default [] (content fs_copy "/dst")) ≤ length B).
Proof.
  apply (CopyFile_success_contract fs_copy). reflexivity.
Defined.

(** X13. After a successful [CopyFile], [FileExists] is true of [dst]
    and of [src], and [DirExists] is false of both. *)
Theorem CopyFile_then_FileExists (fs fs' : filesystem) dst src :
  CopyFile fs dst src = (fs', None) →
  FileExists fs' dst = true ∧ FileExists fs' src = true
  ∧ DirExists fs' dst = false ∧ DirExists fs' src = false.
Proof.
  rewrite CopyFile_cases. unfold FileExists, DirExists, Stat.
  destruct (fs !! src) as [[smode B| |se]|] eqn:Hsrc; try done.
  - destruct (has_flag smode S_IRUSR); [|done].
    destruct (fs !! dst) as [[dmode old| |de]|] eqn:Hdst; try done.
    + destruct (has_flag dmode S_IWUSR); [|done]. intros [= <-].
      rewrite lookup_insert_eq.
      destruct (decide (dst = src)) as [->|Hne].
      * by rewrite lookup_insert_eq.
      * rewrite lookup_insert_ne by done. by rewrite Hsrc.
    + assert (dst ≠ src) as Hne by congruence. intros [= <-].
      rewrite lookup_insert_eq, lookup_insert_ne by done. by rewrite Hsrc.
  - repeat case_match; done.
Qed.

Lemma CopyFile_then_FileExists_witness :
  FileExists (CopyFile fs_texts "/new" "/one").1 "/new" = true.
Proof.
  apply (CopyFile_then_FileExists fs_texts _ "/new" "/one"). reflexivity.
Defined.

(** X14. Copying into a path that did not exist and reading the copy
    with [ReadLines] gives what [ReadLines] gives for the source. *)
Theorem CopyFile_then_ReadLines (fs fs' : filesystem) dst src :
  fs !! dst = None →
  CopyFile fs dst src = (fs', None) →
  ReadLines fs' dst = ReadLines fs src.
Proof.
  destruct perm_0644_flags as [Hr644 _].
  intros Hdst. rewrite CopyFile_cases, Hdst.
  destruct (fs !! src) as [[smode B| |se]|] eqn:Hsrc; try done.
  destruct (has_flag smode S_IRUSR) eqn:Hr; [|done]. intros [= <-].
  unfold ReadLines, ReadFile. rewrite !Open_cases.
  rewrite lookup_insert_eq, Hsrc, Hr644, Hr. unfold read_all. cbn [h_path h_pos].
  by rewrite lookup_insert_eq, Hsrc.
Qed.

Lemma CopyFile_then_ReadLines_witness :
  ReadLines (CopyFile fs_texts "/new" "/both").1 "/new"
  = ReadLines fs_texts "/both".
Proof.
  apply (CopyFile_then_ReadLines fs_texts _ "/new" "/both"); reflexivity.
Defined.



(** X16. [FileExists] and [DirExists] are never both true of a path,
    and one of them is true exactly when [os.Stat] succeeds on it. *)
Theorem FileExists_DirExists_exclusive (fs : filesystem) filename :
  FileExists fs filename && DirExists fs filename = false
  ∧ (FileExists fs filename || DirExists fs filename = true
     ↔ ∃ info, Stat fs filename = Ok info).
Proof.
  unfold FileExists, DirExists.
  destruct (Stat fs filename) as [[[] size]|e]; cbn.
  - split; [done|]. split; [eauto|done].
  - split; [done|]. split; [eauto|done].
  - split; [done|]. split; [done|]. intros [info Hinfo]. discriminate.
Qed.

Lemma FileExists_DirExists_exclusive_witness :
  FileExists fs_texts "/dir" || DirExists fs_texts "/dir" = true
  ∧ FileExists fs_texts "/dir" && DirExists fs_texts "/dir" = false.
Proof.
  destruct (FileExists_DirExists_exclusive fs_texts "/dir") as [Hexcl Hone].
  split; [|exact Hexcl].
  apply Hone. eexists. reflexivity.
Defined.

End FileMore.

(** ** More about Run, Output and CombinedOutput *)
Module ExecMore.
Import GoStrings GoError Exec Check Samples MoreSamples EnvFacts ExecSpec.


Lemma written_to_stdout_writer (c : Cmd) w output :
  Stdout c = Some w → Stderr c ≠ Some w →
  written_to w (deliveries c output) = stream_bytes OnStdout output.
Proof.
  intros Hout Herr. unfold written_to, deliveries, stream_bytes. rewrite Hout.
  induction output as [|[st bytes] output IH]; [done|].
  cbn [omap list_omap fst snd]. destruct st.
  - cbn [fmap option_fmap option_map omap list_omap fst snd].
    rewrite !decide_True by done. cbn [concat]. by f_equal.
  - rewrite (decide_False (P := OnStderr = OnStdout)) by done.
    destruct (Stderr c) as [w'|] eqn:Hw;
      cbn [fmap option_fmap option_map omap list_omap fst snd]; [|done].
    rewrite decide_False by congruence. done.
Qed.

Lemma written_to_stderr_writer (c : Cmd) w output :
  Stderr c = Some w → Stdout c ≠ Some w →
  written_to w (deliveries c output) = stream_bytes OnStderr output.
Proof.
  intros Herr Hout. unfold written_to, deliveries, stream_bytes. rewrite Herr.
  induction output as [|[st bytes] output IH]; [done|].
  cbn [omap list_omap fst snd]. destruct st.
  - rewrite (decide_False (P := OnStdout = OnStderr)) by done.
    destruct (Stdout c) as [w'|] eqn:Hw;
      cbn [fmap option_fmap option_map omap list_omap fst snd]; [|done].
    rewrite decide_False by congruence. done.
  - cbn [fmap option_fmap option_map omap list_omap fst snd].
    rewrite !decide_True by done. cbn [concat]. by f_equal.
Qed.

Lemma deliveries_no_writers (c : Cmd) output :
  Stdout c = None → Stderr c = None → deliveries c output = [].
Proof.
  intros Hout Herr. unfold deliveries. rewrite Hout, Herr.
  induction output as [|[[] bytes] output IH]; done.
Qed.


(** What [Output] passes on to the caller: the chunks for a sink. *)
Lemma passed_on_stderr (c : Cmd) e output :
  Stdout c = Some CaptureBuffer → Stderr c = Some (Sink e) →
  filter (λ d, d.1 ≠ CaptureBuffer) (deliveries c output)
  = omap (λ chunk : stream * list byte,
            if decide (chunk.1 = OnStderr) then Some (Sink e, chunk.2) else None)
      output.
Proof.
  intros Hout Herr. unfold deliveries. rewrite Hout, Herr.
  induction output as [|[[] bytes] output IH]; [done| |];
    cbn [omap list_omap fst snd fmap option_fmap option_map].
  - rewrite filter_cons_False by (intros Hne; by apply Hne).
    by rewrite (decide_False (P := OnStdout = OnStderr)) by done.
  - rewrite filter_cons_True by done.
    rewrite (decide_True (P := OnStderr = OnStderr)) by done. by f_equal.
Qed.

Lemma passed_on_nothing (c : Cmd) output :
  Stdout c = Some CaptureBuffer → Stderr c = None →
  filter (λ d, d.1 ≠ CaptureBuffer) (deliveries c output) = [].
Proof.
  intros Hout Herr. unfold deliveries. rewrite Hout, Herr.
  induction output as [|[[] bytes] output IH]; [done| |];
    cbn [omap list_omap fst snd fmap option_fmap option_map]; [|done].
  by rewrite filter_cons_False by (intros Hne; by apply Hne).
Qed.

Lemma written_to_stderr_chunks w e output :
  written_to w
    (omap (λ chunk : stream * list byte,
             if decide (chunk.1 = OnStderr) then Some (Sink e, chunk.2) else None)
       output)
  = if decide (w = Sink e) then stream_bytes OnStderr output else [].
Proof.
  unfold written_to, stream_bytes.
  induction output as [|[st bytes] output IH]; [by destruct (decide _)|].
  cbn [omap list_omap fst snd].
  destruct (decide (st = OnStderr)) as [->|Hst]; [|done].
  cbn [omap list_omap fst snd].
  destruct (decide (Sink e = w)) as [<-|Hw].
  - rewrite decide_True in IH by done. rewrite decide_True by done.
    cbn [concat]. by f_equal.
  - rewrite decide_False in IH by congruence. by rewrite decide_False by congruence.
Qed.

Section WithOS.
Variable environ : list string.
Variable spawn : process_oracle.
Variable map_range : gmap string string → list (string * string).

Local Abbreviation launch := (launch environ spawn).
Local Abbreviation Run := (Run environ spawn map_range).
Local Abbreviation Run_cmd := (Run_cmd environ map_range).
Local Abbreviation Output := (Output environ spawn map_range).
Local Abbreviation Output_cmd := (Output_cmd environ map_range).
Local Abbreviation CombinedOutput := (CombinedOutput environ spawn map_range).
Local Abbreviation CombinedOutput_cmd := (CombinedOutput_cmd environ map_range).
Local Abbreviation parseEnv := (parseEnv environ map_range).

Lemma launch_Run_cmd cmd workDir env stdout stderr :
  launch (Run_cmd cmd workDir env stdout stderr)
  = spawn (Path cmd) (Args cmd) workDir (parseEnv env).
Proof. reflexivity. Qed.

Lemma launch_Output_cmd cmd workDir env stderr :
  launch (Output_cmd cmd workDir env stderr)
  = spawn (Path cmd) (Args cmd) workDir (parseEnv env).
Proof. reflexivity. Qed.

Lemma launch_CombinedOutput_cmd cmd workDir env :
  launch (CombinedOutput_cmd cmd workDir env)
  = spawn (Path cmd) (Args cmd) workDir (parseEnv env).
Proof. reflexivity. Qed.


(** X17. [Run] returns nil exactly when the program was started and left
    status zero, whatever writers the command carried before. A start
    failure is returned as it is, a status other than zero as an exit
    error with that status. *)
Theorem Run_error_iff_failure (cmd : Cmd) (workDir : string)
    (env : gmap string string) (stdout stderr : option nat) :
  let answer := spawn (Path cmd) (Args cmd) workDir (parseEnv env) in
  ((Run cmd workDir env stdout stderr).1 = None
   ↔ ∃ output, answer = Exited 0 output)
  ∧ (∀ e, answer = StartFailed e →
          Run cmd workDir env stdout stderr = (Some e, []))
  ∧ (∀ code output, answer = Exited code output → code ≠ 0%Z →
          (Run cmd workDir env stdout stderr).1 = Some (ExitError code)).
Proof.
  intros answer. rewrite Run_unfold. fold answer.
  split; [|split].
  - destruct answer as [e|code output]; cbn [fst].
    + split; [done|]. intros [output Hout]. discriminate.
    + unfold exit_error. destruct (decide (code = 0%Z)) as [->|Hcode].
      * split; [eauto|done].
      * split; [done|]. intros [output' [= Hc _]]. done.
  - intros e ->. done.
  - intros code output -> Hcode. cbn [fst]. unfold exit_error.
    by rewrite decide_False.
Qed.

(** X18. [Run] sends what the program writes to its standard output to
    the stdout writer and what it writes to its standard error to the
    stderr writer, each in order; when both are the same writer it
    receives all chunks in the order they were written; a nil writer
    receives nothing. *)
Theorem Run_routes_output (cmd : Cmd) (workDir : string)
    (env : gmap string string) (code : Z) (output : list (stream * list byte)) :
  spawn (Path cmd) (Args cmd) workDir (parseEnv env) = Exited code output →
  (∀ o e, o ≠ e →
     written_to (Sink o) (Run cmd workDir env (Some o) (Some e)).2
     = stream_bytes OnStdout output
     ∧ written_to (Sink e) (Run cmd workDir env (Some o) (Some e)).2
       = stream_bytes OnStderr output)
  ∧ (∀ o, written_to (Sink o) (Run cmd workDir env (Some o) (Some o)).2
          = concat (output.*2))
  ∧ (∀ o, written_to (Sink o) (Run cmd workDir env (Some o) None).2
          = stream_bytes OnStdout output)
  ∧ (Run cmd workDir env None None).2 = [].
Proof.
  intros Hrun. split; [|split; [|split]].
  - intros o e Hoe. rewrite Run_unfold, Hrun. cbn [snd]. split.
    + apply written_to_stdout_writer; [done|]. cbn. congruence.
    + apply written_to_stderr_writer; [done|]. cbn. congruence.
  - intros o. rewrite Run_unfold, Hrun. cbn [snd].
    by apply written_to_same_writer.
  - intros o. rewrite Run_unfold, Hrun. cbn [snd].
    by apply written_to_stdout_writer.
  - rewrite Run_unfold, Hrun. cbn [snd]. by apply deliveries_no_writers.
Qed.

Lemma Run_cmd_same_program c1 c2 workDir env stdout stderr :
  Path c1 = Path c2 → Args c1 = Args c2 →
  Run_cmd c1 workDir env stdout stderr = Run_cmd c2 workDir env stdout stderr.
Proof.
  intros Hp Ha. unfold Check.Run_cmd, set_Stderr, set_Stdout, set_Env, set_Dir.
  cbn. by rewrite Hp, Ha.
Qed.

(** X19. Whatever directory and environment a command carried before
    are overwritten: two commands with the same program and arguments
    give the same [Run]; with the same [Stdout] as well the same
    [Output]; with the same [Stdout] and [Stderr] the same
    [CombinedOutput]. *)
Theorem preset_Dir_Env_are_ignored (c1 c2 : Cmd) (workDir : string)
    (env : gmap string string) (stdout stderr : option nat) :
  Path c1 = Path c2 → Args c1 = Args c2 →
  Run c1 workDir env stdout stderr = Run c2 workDir env stdout stderr
  ∧ (Stdout c1 = Stdout c2 →
     Output c1 workDir env stderr = Output c2 workDir env stderr)
  ∧ (Stdout c1 = Stdout c2 → Stderr c1 = Stderr c2 →
     CombinedOutput c1 workDir env = CombinedOutput c2 workDir env).
Proof.
  intros Hp Ha. split; [|split].
  - unfold Check.Run. by rewrite (Run_cmd_same_program c1 c2).
  - intros Ho. unfold Check.Output. f_equal.
    unfold Check.Output_cmd, set_Stderr, set_Env, set_Dir. cbn.
    by rewrite Hp, Ha, Ho.
  - intros Ho He. unfold Check.CombinedOutput. f_equal.
    unfold Check.CombinedOutput_cmd, set_Env, set_Dir. cbn.
    by rewrite Hp, Ha, Ho, He.
Qed.


(** X20. For a command without preset writers [CombinedOutput] returns
    everything the program wrote, standard output and standard error
    interleaved in the order of writing, with a nil error for status
    zero and an exit error otherwise; a start failure gives the empty
    text and that error. A command whose [Stdout] or [Stderr] is
    already set is refused with the empty text, whatever the program
    would do. *)
Theorem CombinedOutput_interleaves (cmd : Cmd) (workDir : string)
    (env : gmap string string) :
  let answer := spawn (Path cmd) (Args cmd) workDir (parseEnv env) in
  (Stdout cmd = None → Stderr cmd = None →
   (∀ code output, answer = Exited code output →
      CombinedOutput cmd workDir env
      = ((string_of_bytes (concat (output.*2)), exit_error code), []))
   ∧ (∀ e, answer = StartFailed e →
      CombinedOutput cmd workDir env = ((EmptyString, Some e), [])))
  ∧ (is_Some (Stdout cmd) ∨ is_Some (Stderr cmd) →
     ∃ msg, CombinedOutput cmd workDir env
            = ((EmptyString, Some (ErrorString msg)), [])).
Proof.
  intros answer. rewrite CombinedOutput_unfold. fold answer. split.
  - intros -> ->. split.
    + intros code output ->. done.
    + intros e ->. done.
  - intros [[w Hw]|[w Hw]]; rewrite Hw.
    + eauto.
    + destruct (Stdout cmd); eauto.
Qed.

(** X21. [Output] passes the program's standard error on to the stderr
    writer, in order, and nothing else to any writer: the standard
    output is only captured. With a nil stderr writer nothing is
    passed on. *)
Theorem Output_passes_on_stderr_only (cmd : Cmd) (workDir : string)
    (env : gmap string string) (code : Z) (output : list (stream * list byte)) :
  Stdout cmd = None →
  spawn (Path cmd) (Args cmd) workDir (parseEnv env) = Exited code output →
  (∀ e, written_to (Sink e) (Output cmd workDir env (Some e)).2
        = stream_bytes OnStderr output
        ∧ ∀ w, w ≠ Sink e →
               written_to w (Output cmd workDir env (Some e)).2 = [])
  ∧ (Output cmd workDir env None).2 = [].
Proof.
  intros Hout Hrun.
  assert (∀ stderr,
    (Output cmd workDir env stderr).2
    = filter (λ d, d.1 ≠ CaptureBuffer)
        (deliveries (set_Stdout (Output_cmd cmd workDir env stderr)
                       (Some CaptureBuffer)) output)) as Hds.
  { intros stderr. unfold Check.Output, Cmd_Output, Cmd_Run.
    change (Stdout (Output_cmd cmd workDir env stderr)) with (Stdout cmd).
    rewrite Hout.
    change (Exec.launch _ _ _)
      with (spawn (Path cmd) (Args cmd) workDir (parseEnv env)).
    by rewrite Hrun. }
  split.
  - intros e. rewrite Hds, (passed_on_stderr _ e) by done. split.
    + rewrite written_to_stderr_chunks. by rewrite decide_True.
    + intros w Hw. rewrite written_to_stderr_chunks. by rewrite decide_False.
  - rewrite Hds. by apply passed_on_nothing.
Qed.

(** X22. For a command without preset writers the three functions
    return the same error: that of [Run]. *)
Theorem same_error_from_all_three (cmd : Cmd) (workDir : string)
    (env : gmap string string) (stdout stderr stderr' : option nat) :
  Stdout cmd = None → Stderr cmd = None →
  (Output cmd workDir env stderr').1.2 = (Run cmd workDir env stdout stderr).1
  ∧ (CombinedOutput cmd workDir env).1.2 = (Run cmd workDir env stdout stderr).1.
Proof.
  intros Hout Herr. rewrite CombinedOutput_unfold, Run_unfold, Hout, Herr.
  rewrite (ExecSpec.Output_unfold environ spawn map_range).
  change (Stdout (Check.Output_cmd environ map_range cmd workDir env stderr'))
    with (Stdout cmd).
  rewrite Hout, launch_Output_cmd.
  by destruct (spawn _ _ _ _).
Qed.

(** [range] visits every pair of the map once, in some order. *)
Hypothesis map_range_perm : ∀ env, map_range env ≡ₚ map_to_list env.

(** X23. The overrides disturb no other variable: a name that no
    appended entry carries resolves for the child as it did in the
    inherited environment. When no key of the map contains [=], these
    are the names that are not keys of the map. *)
Theorem parseEnv_keeps_other_variables (env : gmap string string)
    (name : string) :
  ((∀ k v, env !! k = Some v → entry_name ((k +:+ "=") +:+ v) ≠ Some name) →
   lookup_env (parseEnv env) name = lookup_env environ name)
  ∧ (names_ok env → env !! name = None →
     lookup_env (parseEnv env) name = lookup_env environ name).
Proof.
  assert ((∀ k v, env !! k = Some v →
             entry_name ((k +:+ "=") +:+ v) ≠ Some name) →
          lookup_env (parseEnv env) name = lookup_env environ name) as Hframe.
  { intros Hfree. rewrite (ExecSpec.parseEnv_app environ map_range).
    rewrite lookup_env_app.
    destruct (lookup_env (override_entry <$> map_range env) name) as [v|] eqn:Hv;
      [|done].
    apply lookup_env_Some in Hv as (kv & Hin & Hname & _).
    apply list_elem_of_fmap in Hin as ([k' v'] & -> & Hin).
    apply (ExecSpec.map_range_elem map_range map_range_perm) in Hin.
    by destruct (Hfree k' v' Hin). }
  split; [done|].
  intros Hok Hnone. apply Hframe. intros k v Hkv Hname.
  pose proof (Hok k v Hkv) as Hk. cbn in Hk.
  destruct (override_entry_name_value k v Hk) as [Hn _].
  unfold override_entry in Hn. cbn [fst snd] in Hn.
  rewrite Hn in Hname. injection Hname as ->. congruence.
Qed.

End WithOS.

Lemma Run_error_iff_failure_witness :
  (Run environ_example spawn_example map_to_list
     (cmd_example "/bin/echo") "/" env_example (Some 1) (Some 2)).1 = None
  ∧ (Run environ_example spawn_example map_to_list
       (cmd_preset "/bin/false") "/" env_example (Some 1) (Some 2)).1
    = Some (ExitError 1)
  ∧ Run environ_example spawn_example map_to_list
      (cmd_example "/bin/nothing") "/" env_example (Some 1) (Some 2)
    = (Some (ExecError "/bin/nothing" ENOENT), []).
Proof.
  destruct (Run_error_iff_failure environ_example spawn_example map_to_list
              (cmd_example "/bin/echo") "/" env_example (Some 1) (Some 2))
    as (Hnil & _ & _).
  destruct (Run_error_iff_failure environ_example spawn_example map_to_list
              (cmd_preset "/bin/false") "/" env_example (Some 1) (Some 2))
    as (_ & _ & Hexit).
  destruct (Run_error_iff_failure environ_example spawn_example map_to_list
              (cmd_example "/bin/nothing") "/" env_example (Some 1) (Some 2))
    as (_ & Hstart & _).
  split; [|split].
  - apply Hnil. eexists. reflexivity.
  - apply (Hexit 1%Z [(OnStdout, [x68; x65; x6c]%byte); (OnStderr, [x21]%byte)]);
      [reflexivity|discriminate].
  - apply Hstart. reflexivity.
Defined.

Lemma Run_routes_output_witness :
  written_to (Sink 1)
    (Run environ_example spawn_example map_to_list
       (cmd_preset "/bin/false") "/" env_example (Some 1) (Some 2)).2
  = [x68; x65; x6c]%byte
  ∧ written_to (Sink 2)
      (Run environ_example spawn_example map_to_list
         (cmd_preset "/bin/false") "/" env_example (Some 1) (Some 2)).2
    = [x21]%byte.
Proof.
  destruct (Run_routes_output environ_example spawn_example map_to_list
              (cmd_preset "/bin/false") "/" env_example 1%Z
              [(OnStdout, [x68; x65; x6c]%byte); (OnStderr, [x21]%byte)])
    as (Hsplit & _); [reflexivity|].
  apply (Hsplit 1 2). discriminate.
Defined.

Lemma preset_Dir_Env_are_ignored_witness :
  Run environ_example spawn_example map_to_list
    (cmd_preset "/bin/echo") "/" env_example (Some 1) (Some 2)
  = Run environ_example spawn_example map_to_list
      (cmd_example "/bin/echo") "/" env_example (Some 1) (Some 2).
Proof.
  apply (preset_Dir_Env_are_ignored environ_example spawn_example map_to_list
           (cmd_preset "/bin/echo") (cmd_example "/bin/echo") "/" env_example
           (Some 1) (Some 2)); reflexivity.
Defined.

Lemma CombinedOutput_interleaves_witness :
  CombinedOutput environ_example spawn_example map_to_list
    (cmd_example "/bin/false") "/" env_example
  = (("hel!"%string, Some (ExitError 1)), [])
  ∧ ∃ msg, CombinedOutput environ_example spawn_example map_to_list
             (cmd_preset "/bin/false") "/" env_example
           = ((EmptyString, Some (ErrorString msg)), []).
Proof.
  destruct (CombinedOutput_interleaves environ_example spawn_example map_to_list
              (cmd_example "/bin/false") "/" env_example) as [Hrun _].
  destruct (CombinedOutput_interleaves environ_example spawn_example map_to_list
              (cmd_preset "/bin/false") "/" env_example) as [_ Hpreset].
  split.
  - destruct (Hrun eq_refl eq_refl) as [Hexit _].
    apply (Hexit 1%Z [(OnStdout, [x68; x65; x6c]%byte); (OnStderr, [x21]%byte)]).
    reflexivity.
  - apply Hpreset. left. eexists. reflexivity.
Defined.

Lemma Output_passes_on_stderr_only_witness :
  written_to (Sink 2)
    (Output environ_example spawn_example map_to_list
       (cmd_example "/bin/false") "/" env_example (Some 2)).2
  = [x21]%byte.
Proof.
  destruct (Output_passes_on_stderr_only environ_example spawn_example map_to_list
              (cmd_example "/bin/false") "/" env_example 1%Z
              [(OnStdout, [x68; x65; x6c]%byte); (OnStderr, [x21]%byte)])
    as (Hsink & _); [reflexivity|reflexivity|].
  apply (Hsink 2).
Defined.

Lemma same_error_from_all_three_witness :
  (Output environ_example spawn_example map_to_list
     (cmd_example "/bin/false") "/" env_example None).1.2
  = (Run environ_example spawn_example map_to_list
       (cmd_example "/bin/false") "/" env_example (Some 1) (Some 2)).1.
Proof.
  destruct (same_error_from_all_three environ_example spawn_example map_to_list
              (cmd_example "/bin/false") "/" env_example (Some 1) (Some 2) None
              eq_refl eq_refl) as [Hout _].
  exact Hout.
Defined.

Lemma parseEnv_keeps_other_variables_witness :
  lookup_env (parseEnv environ_example map_to_list env_example) "PATH"
  = lookup_env environ_example "PATH".
Proof.
  apply (parseEnv_keeps_other_variables environ_example map_to_list
           (λ env, reflexivity (map_to_list env)) env_example "PATH").
  - unfold names_ok, env_example. apply map_Forall_singleton. reflexivity.
  - reflexivity.
Defined.

End ExecMore.

(** ** More about Panic and NoError *)
Module LogMore.
Import GoError Logrus Check Samples MoreSamples LogSpec.

(** X24. [NoError] and [Panic] judge an error alike: [NoError] returns
    false exactly when [Panic] panics, and then the two hand the logger
    entries with the same message and the same fields, at error level
    and at panic level. *)
Theorem NoError_false_iff_Panic_panics (err : option error) (log : Entry)
    (msg : string) (tr : log_trace) :
  ((NoError err log msg tr).2 = false
   ↔ ∃ r, (Panic err log msg tr).2 = Panicked r)
  ∧ (∀ rn rp,
       (NoError err log msg tr).1 = tr ++ [rn] →
       (Panic err log msg tr).1 = tr ++ [rp] →
       Message rn = Message rp ∧ Fields rn = Fields rp
       ∧ Severity rn = ErrorLevel ∧ Severity rp = PanicLevel).
Proof.
  destruct err as [e|].
  - rewrite Panic_non_nil. cbn [fst snd]. split.
    + split; [eauto|].
      intros _. destruct (IsLevelEnabled (LoggerLevel log) ErrorLevel) eqn:Hon.
      * by rewrite NoError_non_nil.
      * by rewrite NoError_dropped.
    + intros rn rp Hn Hp. apply app_inv_head in Hp. injection Hp as <-.
      destruct (IsLevelEnabled (LoggerLevel log) ErrorLevel) eqn:Hon.
      * rewrite NoError_non_nil in Hn by done. cbn [fst] in Hn.
        apply app_inv_head in Hn. injection Hn as <-. done.
      * rewrite NoError_dropped in Hn by done. cbn [fst] in Hn.
        apply (f_equal length) in Hn. rewrite length_app in Hn. cbn in Hn. lia.
  - rewrite NoError_nil, Panic_nil. cbn [fst snd]. split.
    + split; [done|]. intros [r Hr]. discriminate.
    + intros rn rp Hn. apply (f_equal length) in Hn.
      rewrite length_app in Hn. cbn in Hn. lia.
Qed.

Lemma NoError_false_iff_Panic_panics_witness :
  ∃ r, (Panic (Some boom) busy_entry "msg" []).2 = Panicked r.
Proof.
  apply (NoError_false_iff_Panic_panics (Some boom) busy_entry "msg" []).
  reflexivity.
Defined.

(** X25. Neither function drops or changes what the logger had logged
    before, and each adds at most one entry: [Panic] one exactly when
    the error is not nil, [NoError] one exactly when the error is not
    nil and the logger has the error level enabled. That entry carries
    every field of the entry passed in, except that its [error] field
    is the error checked, in the place of any error the entry carried
    already. *)
Theorem logging_keeps_trace_and_fields (err : option error) (log : Entry)
    (msg : string) (tr : log_trace) :
  let tn := (NoError err log msg tr).1 in
  let tp := (Panic err log msg tr).1 in
  take (length tr) tn = tr ∧ take (length tr) tp = tr
  ∧ length tp = length tr + match err with Some _ => 1 | None => 0 end
  ∧ length tn
    = length tr
      + match err with
        | Some _ => if IsLevelEnabled (LoggerLevel log) ErrorLevel then 1 else 0
        | None => 0
        end
  ∧ ∀ r, r ∈ drop (length tr) tn ∨ r ∈ drop (length tr) tp →
         (∀ k, k ≠ ErrorKey → Fields r !! k = Data log !! k)
         ∧ ∃ e, err = Some e ∧ Fields r !! ErrorKey = Some (VError e).
Proof.
  intros tn tp. subst tn tp. destruct err as [e|].
  - rewrite Panic_non_nil. cbn [fst].
    assert (∀ r : LogRecord,
              Fields r = <[ErrorKey := VError e]> (Data log) →
              (∀ k, k ≠ ErrorKey → Fields r !! k = Data log !! k)
              ∧ ∃ e', Some e = Some e'
                      ∧ Fields r !! ErrorKey = Some (VError e')) as Hfields.
    { intros r ->. split.
      - intros k Hk. by rewrite lookup_insert_ne.
      - exists e. split; [done|apply lookup_insert_eq]. }
    destruct (IsLevelEnabled (LoggerLevel log) ErrorLevel) eqn:Hon.
    + rewrite NoError_non_nil by done. cbn [fst].
      rewrite !take_app_length, !drop_app_length, !length_app. cbn [length].
      split; [done|]. split; [done|]. split; [done|]. split; [done|].
      intros r [Hr|Hr]; apply list_elem_of_singleton in Hr as ->;
        by apply Hfields.
    + rewrite NoError_dropped by done. cbn [fst].
      rewrite firstn_all, drop_all, take_app_length, drop_app_length, length_app.
      cbn [length].
      split; [done|]. split; [done|]. split; [done|]. split; [lia|].
      intros r [Hr|Hr]; [by apply elem_of_nil in Hr|].
      apply list_elem_of_singleton in Hr as ->. by apply Hfields.
  - rewrite NoError_nil, Panic_nil. cbn [fst].
    rewrite firstn_all, drop_all.
    split; [done|]. split; [done|]. split; [lia|]. split; [lia|].
    intros r [Hr|Hr]; by apply elem_of_nil in Hr.
Qed.

Lemma logging_keeps_trace_and_fields_witness :
  ∃ r, (NoError (Some boom) busy_entry "msg" []).1 = [r]
       ∧ Fields r !! "req"%string = Some (VString "42")
       ∧ Fields r !! "error"%string = Some (VError boom).
Proof.
  destruct (logging_keeps_trace_and_fields (Some boom) busy_entry "msg" [])
    as (_ & _ & _ & _ & Hnew).
  eexists. split; [reflexivity|].
  destruct (Hnew _ (or_introl (list_elem_of_here _ _))) as [Hkeep (e & He & Herr)].
  split.
  - rewrite Hkeep by discriminate. reflexivity.
  - injection He as <-. exact Herr.
Defined.

End LogMore.
